(** * Texas Hold'em core: cards, deck, players, betting and hand evaluation

    A shallow embedding of the JavaScript sources
    (models/Cards.js, models/Decks.js, models/Players.js,
    services/DealService.js, services/GameService.js,
    services/HandEvaluator.js) and the properties proved about them.

    Conventions of the embedding:
    - chip amounts, card values and counts are JavaScript numbers that only
      ever hold integers here; they are modelled by [Z];
    - a thrown exception is the [Thrown] branch of [Outcome]; the message
      text of the source (a template string) is abbreviated to its fixed part;
    - [Object.freeze] is modelled by the boolean field [frozen] of an object;
      all sources are ES modules, hence strict-mode code, where an assignment
      to a property of a frozen object throws a [TypeError];
    - an object passed by reference and assigned to by the callee is modelled
      by explicit state passing: the callee returns the state of its argument
      next to its outcome. *)

From Stdlib Require Import ZArith Lia DecimalString.
From stdpp Require Import gmap strings list sorting.

Local Open Scope Z_scope.

(** ** Exceptions *)

Inductive JsError : Type :=
  | Error (msg : string)
  | TypeError (msg : string).

Inductive Outcome (A : Type) : Type :=
  | Returned (a : A)
  | Thrown (e : JsError).

Arguments Returned {A} a.
Arguments Thrown {A} e.

Definition isReturned {A} (o : Outcome A) : bool :=
  match o with Returned _ => true | Thrown _ => false end.

Definition isThrown {A} (o : Outcome A) : bool := negb (isReturned o).

(** ** models/Cards.js *)

Inductive Suit : Type := Spades | Hearts | Diamonds | Clubs.

Inductive Rank : Type :=
  | R2 | R3 | R4 | R5 | R6 | R7 | R8 | R9 | R10 | RJ | RQ | RK | RA.

#[global] Instance Suit_eq_dec : EqDecision Suit.
Proof. solve_decision. Defined.

#[global] Instance Rank_eq_dec : EqDecision Rank.
Proof. solve_decision. Defined.

Definition SUITS : list Suit := [Spades; Hearts; Diamonds; Clubs].

Definition RANKS : list Rank :=
  [R2; R3; R4; R5; R6; R7; R8; R9; R10; RJ; RQ; RK; RA].

(** [RANKS.indexOf(rank)] *)
Fixpoint indexOf {A} `{EqDecision A} (x : A) (l : list A) : Z :=
  match l with
  | [] => -1
  | y :: l' =>
      if decide (y = x) then 0
      else let i := indexOf x l' in if i <? 0 then -1 else i + 1
  end.

Record Card : Type := mkCard { rank : Rank; suit : Suit; value : Z }.

#[global] Instance Card_eq_dec : EqDecision Card.
Proof. solve_decision. Defined.

(** The two membership tests of the source cannot fail on the enumerated
    types [Rank] and [Suit]. *)
Definition createCard (r : Rank) (s : Suit) : Card :=
  {| rank := r; suit := s; value := indexOf r RANKS + 2 |}.

Definition compareCardsRank (a b : Card) : Z := value a - value b.

(** ** models/Decks.js *)

Record Deck : Type := mkDeck { cards : list Card; remaining : Z }.

Definition createDeck : Deck :=
  let cs := flat_map (fun s => map (fun r => createCard r s) RANKS) SUITS in
  {| cards := cs; remaining := Z.of_nat (length cs) |}.

(** [Array.prototype.slice]: a negative index counts from the end, and
    both indices are clamped to the array. *)
Definition relIndex (len : nat) (i : Z) : nat :=
  if i <? 0 then Z.to_nat (Z.max (Z.of_nat len + i) 0)
  else Nat.min (Z.to_nat i) len.

Definition slice {A} (l : list A) (s e : Z) : list A :=
  let k := relIndex (length l) s in
  let f := relIndex (length l) e in
  take (f - k)%nat (drop k l).

Definition sliceFrom {A} (l : list A) (s : Z) : list A :=
  drop (relIndex (length l) s) l.

Record Dealt : Type := mkDealt { dealtCards : list Card; remainingDeck : Deck }.

Definition dealCards (deck : Deck) (count : Z) : Outcome Dealt :=
  if count >? remaining deck then
    Thrown (Error "Impossible de distribuer")
  else
    let dealt := slice (cards deck) 0 count in
    let remainingCards := sliceFrom (cards deck) count in
    Returned {| dealtCards := dealt;
                remainingDeck := {| cards := remainingCards;
                                    remaining := Z.of_nat (length remainingCards) |} |}.

(** ** models/Players.js *)

(** An element of a player's [hand] array: [giveCard] appends whatever it
    is given, a card object or an array of card objects. *)
Inductive HandElem : Type :=
  | HCard (c : Card)
  | HArray (cs : list Card).

#[global] Instance HandElem_eq_dec : EqDecision HandElem.
Proof. solve_decision. Defined.

Record Player : Type := mkPlayer {
  id : string;
  name : string;
  chips : Z;
  hand : list HandElem;
  currentBet : Z;
  hasFolded : bool;
  isInAllIn : bool;
  frozen : bool
}.

#[global] Instance Player_eq_dec : EqDecision Player.
Proof. solve_decision. Defined.

(** [crypto.randomUUID()] is passed in as [uuid]. *)
Definition createPlayer (uuid : string) (name : string) (chips : Z) : Player :=
  {| id := uuid; name := name; chips := chips; hand := []; currentBet := 0;
     hasFolded := false; isInAllIn := false; frozen := true |}.

Definition giveCard (card : HandElem) (player : Player) : Player :=
  {| id := id player; name := name player; chips := chips player;
     hand := hand player ++ [card]; currentBet := currentBet player;
     hasFolded := hasFolded player; isInAllIn := isInAllIn player;
     frozen := true |}.

(** [player.isInAllIn = true] on the argument object. *)
Definition markAllIn (player : Player) : Player :=
  {| id := id player; name := name player; chips := chips player;
     hand := hand player; currentBet := currentBet player;
     hasFolded := hasFolded player; isInAllIn := true;
     frozen := frozen player |}.

(** The frozen object that [placeBet] returns. *)
Definition afterBet (player : Player) (amount : Z) : Player :=
  {| id := id player; name := name player; chips := chips player - amount;
     hand := hand player; currentBet := currentBet player + amount;
     hasFolded := hasFolded player; isInAllIn := isInAllIn player;
     frozen := true |}.

(** The first component is the outcome of the call, the second the state
    of the argument object [player] when the call ends. *)
Definition placeBet (player : Player) (amount : Z) : Outcome Player * Player :=
  if hasFolded player then
    (Thrown (Error "has already folded !"), player)
  else if amount >? chips player then
    (Thrown (Error "has not enougth money to bet"), player)
  else if chips player =? amount then
    if frozen player then
      (Thrown (TypeError "Cannot assign to read only property 'isInAllIn'"), player)
    else
      let player' := markAllIn player in
      (Returned (afterBet player' amount), player')
  else
    (Returned (afterBet player amount), player).

Definition fold (player : Player) : Outcome Player :=
  if hasFolded player then Thrown (Error "has already folded !")
  else Returned
    {| id := id player; name := name player; chips := chips player;
       hand := hand player; currentBet := currentBet player;
       hasFolded := true; isInAllIn := isInAllIn player; frozen := true |}.

Definition call (player : Player) (currentCall : Z) : Outcome Player * Player :=
  let moneyToAdd := currentCall - currentBet player in
  placeBet player moneyToAdd.

Definition raise (player : Player) (raise : Z) : Outcome Player * Player :=
  let amountToRaise := raise - currentBet player in
  placeBet player amountToRaise.

Definition resetForNewHand (player : Player) : Player :=
  {| id := id player; name := name player; chips := chips player;
     hand := []; currentBet := 0; hasFolded := false; isInAllIn := false;
     frozen := true |}.

Definition getActivePlayers (players : list Player) : list Player :=
  filter (fun player => hasFolded player = false) players.

(** Property access on a player object. An own property of the object
    yields its value, any other name yields [undefined]. *)
Inductive JsVal : Type :=
  | JUndefined
  | JBool (b : bool)
  | JNum (z : Z)
  | JStr (s : string)
  | JObject.

Definition getProp (player : Player) (key : string) : JsVal :=
  if decide (key = "id") then JStr (id player)
  else if decide (key = "name") then JStr (name player)
  else if decide (key = "chips") then JNum (chips player)
  else if decide (key = "hand") then JObject
  else if decide (key = "currentBet") then JNum (currentBet player)
  else if decide (key = "hasFolded") then JBool (hasFolded player)
  else if decide (key = "isInAllIn") then JBool (isInAllIn player)
  else if decide (key = "toString") then JObject
  else JUndefined.

Definition truthy (v : JsVal) : bool :=
  match v with
  | JUndefined => false
  | JBool b => b
  | JNum z => negb (z =? 0)
  | JStr s => negb (bool_decide (s = ""))
  | JObject => true
  end.

(** ** services/GameService.js: the game object *)

Inductive Phase : Type := Setup | PreFlop | Flop | Turn | River.

#[global] Instance Phase_eq_dec : EqDecision Phase.
Proof. solve_decision. Defined.

(** The timing fields [dealDelay], [actionDelay] and the readline handle
    [rl] play no part in the state transitions and are left out. *)
Record Game : Type := mkGame {
  players : list Player;
  deck : option Deck;
  tableCard : list Card;
  pot : Z;
  currentPhase : Phase;
  currentBet_ : Z;
  bigBlindPos : Z;
  smallBlindPos : Z;
  smallBlind : Z;
  bigBlind : Z
}.

Definition createNewGame (newPlayers : list (string * string * Z)) : Game :=
  {| players := map (fun '(uuid, nm, ch) => createPlayer uuid nm ch) newPlayers;
     deck := None; tableCard := []; pot := 0; currentPhase := Setup;
     currentBet_ := 0; bigBlindPos := 0; smallBlindPos := -1;
     smallBlind := 10; bigBlind := 20 |}.

Definition withPlayers (g : Game) (ps : list Player) : Game :=
  {| players := ps; deck := deck g; tableCard := tableCard g; pot := pot g;
     currentPhase := currentPhase g; currentBet_ := currentBet_ g;
     bigBlindPos := bigBlindPos g; smallBlindPos := smallBlindPos g;
     smallBlind := smallBlind g; bigBlind := bigBlind g |}.

Definition withDeck (g : Game) (d : Deck) : Game :=
  {| players := players g; deck := Some d; tableCard := tableCard g;
     pot := pot g; currentPhase := currentPhase g;
     currentBet_ := currentBet_ g; bigBlindPos := bigBlindPos g;
     smallBlindPos := smallBlindPos g; smallBlind := smallBlind g;
     bigBlind := bigBlind g |}.

Definition withPot (g : Game) (p : Z) : Game :=
  {| players := players g; deck := deck g; tableCard := tableCard g;
     pot := p; currentPhase := currentPhase g; currentBet_ := currentBet_ g;
     bigBlindPos := bigBlindPos g; smallBlindPos := smallBlindPos g;
     smallBlind := smallBlind g; bigBlind := bigBlind g |}.

Definition withCurrentBet (g : Game) (b : Z) : Game :=
  {| players := players g; deck := deck g; tableCard := tableCard g;
     pot := pot g; currentPhase := currentPhase g; currentBet_ := b;
     bigBlindPos := bigBlindPos g; smallBlindPos := smallBlindPos g;
     smallBlind := smallBlind g; bigBlind := bigBlind g |}.

(** [arr[i]] for a number [i]: [None] stands for [undefined]. *)
Definition at_ {A} (l : list A) (i : Z) : option A :=
  if i <? 0 then None else l !! Z.to_nat i.

(** [game.players[i] = p] at an index that was just read successfully. *)
Definition setPlayer (g : Game) (i : Z) (p : Player) : Game :=
  withPlayers g (<[Z.to_nat i := p]> (players g)).

(** ** services/DealService.js *)

(** [game.players.indexOf(player)]: objects are compared by identity; the
    seats hold distinct objects, told apart by their [id]. *)
Definition playerIndexOf (player : Player) (ps : list Player) : Z :=
  indexOf player ps.

(** The body of the [forEach] callback of [dealPlayers], run on the
    element found at seat [k]. *)
Definition dealOne (g : Game) (k : nat) : Outcome unit * Game :=
  match players g !! k with
  | None => (Returned tt, g)
  | Some player =>
      match deck g with
      | None => (Thrown (TypeError "Cannot read properties of null"), g)
      | Some d =>
          match dealCards d 1 with
          | Thrown e => (Thrown e, g)
          | Returned r =>
              let g1 := withDeck g (remainingDeck r) in
              let newPlayer := giveCard (HArray (dealtCards r)) player in
              if decide (newPlayer = player) then (Returned tt, g1)
              else
                let idx := playerIndexOf player (players g1) in
                if idx >=? 0 then (Returned tt, setPlayer g1 idx newPlayer)
                else (Returned tt, g1)
          end
      end
  end.

(** [game.players.forEach(...)]: seats [k, k+1, ...], [n] of them. *)
Fixpoint dealPass (n : nat) (k : nat) (g : Game) : Outcome unit * Game :=
  match n with
  | O => (Returned tt, g)
  | S n' =>
      match dealOne g k with
      | (Thrown e, g') => (Thrown e, g')
      | (Returned _, g') => dealPass n' (S k) g'
      end
  end.

Definition dealPlayers (g : Game) : Outcome unit * Game :=
  match dealPass (length (players g)) 0 g with
  | (Thrown e, g1) => (Thrown e, g1)
  | (Returned _, g1) => dealPass (length (players g1)) 0 g1
  end.

(** ** services/GameService.js: actions and blinds *)

Inductive Action : Type :=
  | AFold
  | ACheck
  | ACall (amount : Z)
  | ARaise (amount : Z).

Definition isRaise (a : Action) : bool :=
  match a with ARaise _ => true | _ => false end.

(** [player] is the object stored in [game.players[playerIdx]]: an
    assignment that [placeBet] makes to its argument shows in the array
    until the seat is overwritten with the returned object. *)
Definition processAction (g : Game) (player : Player) (action : Action)
    (playerIdx : Z) : Outcome unit * Game :=
  match action with
  | AFold =>
      match fold player with
      | Returned p' => (Returned tt, setPlayer g playerIdx p')
      | Thrown e => (Thrown e, g)
      end
  | ACheck => (Returned tt, g)
  | ACall amount =>
      let '(o, player') := call player (currentBet_ g) in
      let g1 := setPlayer g playerIdx player' in
      match o with
      | Returned p' =>
          let g2 := setPlayer g1 playerIdx p' in
          (Returned tt, withPot g2 (pot g2 + amount))
      | Thrown e => (Thrown e, g1)
      end
  | ARaise amount =>
      let '(o, player') := raise player amount in
      let g1 := setPlayer g playerIdx player' in
      match o with
      | Returned p' =>
          let g2 := setPlayer g1 playerIdx p' in
          let g3 := withPot g2 (pot g2 + (amount - currentBet player')) in
          (Returned tt, withCurrentBet g3 amount)
      | Thrown e => (Thrown e, g1)
      end
  end.

(** One [game.players[pos] = placeBet(game.players[pos], amount)]. *)
Definition postBlind (g : Game) (pos : Z) (amount : Z) : Outcome unit * Game :=
  match at_ (players g) pos with
  | None => (Thrown (TypeError "Cannot read properties of undefined"), g)
  | Some player =>
      let '(o, player') := placeBet player amount in
      let g1 := setPlayer g pos player' in
      match o with
      | Returned p' => (Returned tt, setPlayer g1 pos p')
      | Thrown e => (Thrown e, g1)
      end
  end.

Definition blindBet (g : Game) : Outcome unit * Game :=
  match postBlind g (bigBlindPos g) (bigBlind g) with
  | (Thrown e, g1) => (Thrown e, g1)
  | (Returned _, g1) =>
      match postBlind g1 (smallBlindPos g1) (smallBlind g1) with
      | (Thrown e, g2) => (Thrown e, g2)
      | (Returned _, g2) =>
          let g3 := withPot g2 (smallBlind g2 + bigBlind g2) in
          (Returned tt, withCurrentBet g3 (bigBlind g3))
      end
  end.

(** ** services/GameService.js: one betting phase *)

(** The local variables of [bettingRound] while its loop runs, and the
    players handed to the action-request collaborator so far ([asked],
    latest last). *)
Record Round : Type := mkRound {
  game : Game;
  currentIdx : Z;
  lastRaiserIdx : Z;
  playersToAct : gset string;
  asked : list Player
}.

Inductive Step : Type :=
  | Continue (r : Round)
  | Break (r : Round)
  | Abort (e : JsError) (r : Round).

(** [game.players.find(pl => pl.id === pid)] *)
Definition findById (pid : string) (ps : list Player) : option Player :=
  List.find (fun pl => bool_decide (id pl = pid)) ps.

(** The [forEach] over [activePlayers] that follows a raise by [player]:
    the ids it adds to [playersToAct]. *)
Fixpoint reopen (activePlayers : list Player) (g : Game) (player : Player)
    (toAct : gset string) : Outcome (gset string) :=
  match activePlayers with
  | [] => Returned toAct
  | p :: rest =>
      let playerToAdd := findById (id p) (players g) in
      if bool_decide (id p = id player) then reopen rest g player toAct
      else
        match playerToAdd with
        | None => Thrown (TypeError "Cannot read properties of undefined")
        | Some pl =>
            if negb (hasFolded pl) && negb (isInAllIn pl)
            then reopen rest g player ({[id p]} ∪ toAct)
            else reopen rest g player toAct
        end
  end.

Definition nextIdx (g : Game) (i : Z) : Z :=
  Z.rem (i + 1) (Z.of_nat (length (players g))).

Section BettingRound.

(** The action-request collaborator ([getAIAction] or [getHumanAction],
    whose answers depend on random numbers and on the keyboard): the
    answer to the [n]-th request of the phase. *)
Variable getAction : nat -> Game -> Player -> Action.

(** One pass through the body of the [while] loop. *)
Definition iteration (activePlayers : list Player) (r : Round) : Step :=
  let g := game r in
  match at_ (players g) (currentIdx r) with
  | None => Abort (TypeError "Cannot read properties of undefined") r
  | Some player =>
      if truthy (getProp player "folded") || truthy (getProp player "allIn")
      then
        Continue {| game := g; currentIdx := nextIdx g (currentIdx r);
                    lastRaiserIdx := lastRaiserIdx r;
                    playersToAct := playersToAct r; asked := asked r |}
      else
        let action := getAction (length (asked r)) g player in
        let asked' := asked r ++ [player] in
        match processAction g player action (currentIdx r) with
        | (Thrown e, g1) =>
            Abort e {| game := g1; currentIdx := currentIdx r;
                       lastRaiserIdx := lastRaiserIdx r;
                       playersToAct := playersToAct r; asked := asked' |}
        | (Returned _, g1) =>
            let toAct1 := playersToAct r ∖ {[id player]} in
            let reopened :=
              if isRaise action then reopen activePlayers g1 player toAct1
              else Returned toAct1 in
            let lastRaiser :=
              if isRaise action then currentIdx r else lastRaiserIdx r in
            match reopened with
            | Thrown e =>
                Abort e {| game := g1; currentIdx := currentIdx r;
                           lastRaiserIdx := lastRaiser;
                           playersToAct := toAct1; asked := asked' |}
            | Returned toAct2 =>
                let r' := {| game := g1;
                             currentIdx := nextIdx g1 (currentIdx r);
                             lastRaiserIdx := lastRaiser;
                             playersToAct := toAct2; asked := asked' |} in
                if (length (getActivePlayers (players g1)) <=? 1)%nat
                then Break r' else Continue r'
            end
        end
  end.

(** The [while (playersToAct.size > 0)] loop; [None] when [fuel] passes
    do not end it. *)
Fixpoint bettingLoop (fuel : nat) (activePlayers : list Player) (r : Round)
    : option (Outcome unit * Round) :=
  if (size (playersToAct r) =? 0)%nat then Some (Returned tt, r)
  else
    match fuel with
    | O => None
    | S fuel' =>
        match iteration activePlayers r with
        | Continue r' => bettingLoop fuel' activePlayers r'
        | Break r' => Some (Returned tt, r')
        | Abort e r' => Some (Thrown e, r')
        end
    end.

(** The state in which the loop of [bettingRound] is entered. *)
Definition startRound (g : Game) : Round :=
  let activePlayers := getActivePlayers (players g) in
  {| game := g;
     currentIdx :=
       if decide (currentPhase g = PreFlop)
       then Z.rem (bigBlindPos g + 1) (Z.of_nat (length (players g)))
       else Z.rem (smallBlindPos g + 1) (Z.of_nat (length (players g)));
     lastRaiserIdx := -1;
     playersToAct := list_to_set (map id activePlayers);
     asked := [] |}.

(** [{ ...p, currentBet: 0 }]: a fresh object, not frozen. *)
Definition clearBet (p : Player) : Player :=
  {| id := id p; name := name p; chips := chips p; hand := hand p;
     currentBet := 0; hasFolded := hasFolded p; isInAllIn := isInAllIn p;
     frozen := false |}.

Definition bettingRound (fuel : nat) (g : Game)
    : option (Outcome unit * Round) :=
  let activePlayers := getActivePlayers (players g) in
  if (length activePlayers <=? 1)%nat then Some (Returned tt, startRound g)
  else
    match bettingLoop fuel activePlayers (startRound g) with
    | None => None
    | Some (Thrown e, r) => Some (Thrown e, r)
    | Some (Returned _, r) =>
        let g1 := withPlayers (game r) (map clearBet (players (game r))) in
        Some (Returned tt,
              {| game := withCurrentBet g1 0; currentIdx := currentIdx r;
                 lastRaiserIdx := lastRaiserIdx r;
                 playersToAct := playersToAct r; asked := asked r |})
    end.

(** The rounds that the loop of [bettingRound g] can be in at the head of
    an iteration. *)
Inductive reachable (g : Game) : Round -> Prop :=
  | reach_start : reachable g (startRound g)
  | reach_step r r' :
      reachable g r ->
      size (playersToAct r) ≠ 0%nat ->
      iteration (getActivePlayers (players g)) r = Continue r' ->
      reachable g r'.

End BettingRound.

(** ** services/GameService.js: the start of a hand *)

(** The first statements of [startNewGame]: players reset, table cleared,
    the blind seats moved one place on. [shuffled] stands for the value of
    [shuffleDeck(createDeck())], which depends on [Math.random]. *)
Definition startHand (shuffled : Deck) (g : Game) : Game :=
  let ps := map resetForNewHand (players g) in
  {| players := ps; deck := Some shuffled; tableCard := []; pot := 0;
     currentPhase := currentPhase g; currentBet_ := 0;
     bigBlindPos := Z.rem (bigBlindPos g + 1) (Z.of_nat (length ps));
     smallBlindPos := Z.rem (smallBlindPos g + 1) (Z.of_nat (length ps));
     smallBlind := smallBlind g; bigBlind := bigBlind g |}.

Definition withPhase (g : Game) (ph : Phase) : Game :=
  {| players := players g; deck := deck g; tableCard := tableCard g;
     pot := pot g; currentPhase := ph; currentBet_ := currentBet_ g;
     bigBlindPos := bigBlindPos g; smallBlindPos := smallBlindPos g;
     smallBlind := smallBlind g; bigBlind := bigBlind g |}.

(** [startNewGame] up to the first betting phase: hole cards, blinds,
    phase set to pre-flop. *)
Definition openHand (shuffled : Deck) (g : Game) : Outcome unit * Game :=
  match dealPlayers (startHand shuffled g) with
  | (Thrown e, g1) => (Thrown e, g1)
  | (Returned _, g1) =>
      match blindBet g1 with
      | (Thrown e, g2) => (Thrown e, g2)
      | (Returned _, g2) => (Returned tt, withPhase g2 PreFlop)
      end
  end.

(** ** Sample tables *)

Definition table3 : Game :=
  startHand createDeck
    (createNewGame [("a", "Alice", 1000); ("b", "Bob", 1000);
                    ("c", "Charlie", 1000)]).

Definition shortTable : Game :=
  startHand createDeck
    (createNewGame [("a", "Alice", 1000); ("b", "Bob", 10)]).

(** Three players at the start of the pre-flop betting phase. *)
Definition preFlop3 : Game :=
  (openHand createDeck
     (createNewGame [("a", "Alice", 1000); ("b", "Bob", 1000);
                     ("c", "Charlie", 1000)])).2.

(** Answers of the collaborator: Charlie folds, Alice raises to 40, Bob
    raises to 80, then a check and a call. *)
Definition foldThenRaises (n : nat) (g : Game) (p : Player) : Action :=
  match n with
  | 0%nat => AFold
  | 1%nat => ARaise 40
  | 2%nat => ARaise 80
  | 3%nat => ACheck
  | _ => ACall (currentBet_ g - currentBet p)
  end.

(** The round in which Alice is about to raise: Charlie has folded. *)
Definition roundAfterFold : Round :=
  match iteration foldThenRaises (getActivePlayers (players preFlop3))
          (startRound preFlop3) with
  | Continue r => r
  | Break r => r
  | Abort _ r => r
  end.

(** ** Arrays as objects *)

(** The hand evaluator sorts arrays in place and compares arrays by
    identity, so its arrays live in a heap: an address is an index into
    the list of arrays allocated so far. Card objects are frozen and no
    statement of the sources assigns to one; they are values. *)
Notation Addr := nat (only parsing).
Notation Heap := (list (list Card)) (only parsing).

Definition M (A : Type) : Type := Heap -> Outcome A * Heap.

Definition ret {A} (a : A) : M A := fun h => (Returned a, h).

Definition bind {A B} (m : M A) (f : A -> M B) : M B :=
  fun h =>
    match m h with
    | (Returned a, h') => f a h'
    | (Thrown e, h') => (Thrown e, h')
    end.

Definition throw {A} (e : JsError) : M A := fun h => (Thrown e, h).

Notation "'let*' x ':=' m 'in' k" := (bind m (fun x => k))
  (at level 10, x name, m at level 100, k at level 200,
   format "'let*'  x  ':='  m  'in' '//' k").

(** A new array object. *)
Definition alloc (cs : list Card) : M Addr :=
  fun h => (Returned (length h), h ++ [cs]).

(** Reading through a reference; a reference to nothing is [undefined]. *)
Definition readArr (a : Addr) : M (list Card) :=
  fun h =>
    match h !! a with
    | Some cs => (Returned cs, h)
    | None => (Thrown (TypeError "Cannot read properties of undefined"), h)
    end.

(** Replacing the elements of an existing array object. *)
Definition writeArr (a : Addr) (cs : list Card) : M unit :=
  fun h => (Returned tt, <[a := cs]> h).

Definition lift {A} (o : Outcome A) : M A := fun h => (o, h).

Fixpoint foldM {A B} (f : B -> A -> M B) (l : list A) (acc : B) : M B :=
  match l with
  | [] => ret acc
  | x :: l' => let* acc' := f acc x in foldM f l' acc'
  end.

(** ** services/HandEvaluator.js *)

Definition HIGH_CARD : Z := 1.
Definition PAIR : Z := 2.
Definition TWO_PAIR : Z := 3.
Definition THREE_OF_KIND : Z := 4.
Definition STRAIGHT : Z := 5.
Definition FLUSH : Z := 6.
Definition FULL_HOUSE : Z := 7.
Definition FOUR_OF_KIND : Z := 8.
Definition STRAIGHT_FLUSH : Z := 9.
Definition ROYAL_FLUSH : Z := 10.

(** [Array.prototype.sort(cmp)], which is stable: an element goes in front
    of the first element that it does not compare greater than. *)
Fixpoint insertBy {A} (cmp : A -> A -> Z) (x : A) (l : list A) : list A :=
  match l with
  | [] => [x]
  | y :: l' => if cmp x y <=? 0 then x :: y :: l' else y :: insertBy cmp x l'
  end.

Definition sortBy {A} (cmp : A -> A -> Z) (l : list A) : list A :=
  foldr (insertBy cmp) [] l.

(** [countByRank]: an object whose keys are card values. The keys are
    array indices (2 to 14), which [Object.keys], [Object.values] and
    [find] enumerate in ascending numeric order. *)
Fixpoint bump (k : Z) (m : list (Z * Z)) : list (Z * Z) :=
  match m with
  | [] => [(k, 1)]
  | (k', n) :: m' =>
      if k =? k' then (k', n + 1) :: m'
      else if k <? k' then (k, 1) :: (k', n) :: m'
      else (k', n) :: bump k m'
  end.

Definition countByRank (cards : list Card) : list (Z * Z) :=
  foldl (fun acc card => bump (value card) acc) [] cards.

(** [cards.every((card, idx, arr) => idx === 0 || p(arr[idx - 1], card))] *)
Fixpoint everyNext (p : Card -> Card -> bool) (prev : Card) (l : list Card)
    : bool :=
  match l with
  | [] => true
  | c :: l' => p prev c && everyNext p c l'
  end.

Definition everyPair (p : Card -> Card -> bool) (l : list Card) : bool :=
  match l with
  | [] => true
  | c :: l' => everyNext p c l'
  end.

(** [cards[i].value === v0 && cards[i+1].value === v1 && ...], left to
    right with the short cut of [&&], as a list of positions and values;
    [cards[j]] past the end is
    [undefined], whose [value] cannot be read. *)
Fixpoint valuesAre (cards : list Card) (expected : list (nat * Z))
    : Outcome bool :=
  match expected with
  | [] => Returned true
  | (j, v) :: rest =>
      match cards !! j with
      | None => Thrown (TypeError "Cannot read properties of undefined")
      | Some c => if value c =? v then valuesAre cards rest
                  else Returned false
      end
  end.

(** The second component is the array after the call: sorted in place. *)
Definition isStraight (cards : list Card) : Outcome bool * list Card :=
  let cards := sortBy compareCardsRank cards in
  let isStraight := everyPair (fun prev card => value card - value prev =? 1) cards in
  match valuesAre cards
          [(0%nat, 2); (1%nat, 3); (2%nat, 4); (3%nat, 5); (4%nat, 14)] with
  | Thrown e => (Thrown e, cards)
  | Returned wheel => (Returned (if wheel then true else isStraight), cards)
  end.

Definition isFlush (cards : list Card) : bool :=
  everyPair (fun prev card => bool_decide (suit card = suit prev)) cards.

(** [count[keys[0]]] and [count[keys[1]]] are the first two values of the
    object; a missing key gives [undefined], equal to no number. *)
Definition isFullHouse (cards : list Card) (count : list (Z * Z)) : bool :=
  match map snd count with
  | a :: b :: _ => ((a =? 2) && (b =? 3)) || ((a =? 3) && (b =? 2))
  | _ => false
  end.

(** [Math.max(...Object.values(count))]; of no values it is [-Infinity]. *)
Definition isOfKind (number : Z) (count : list (Z * Z)) : bool :=
  match map snd count with
  | [] => false
  | v :: vs => foldl Z.max v vs =? number
  end.

Definition isFlushRoyal (cards : list Card) : Outcome bool :=
  valuesAre cards [(0%nat, 10); (4%nat, 14)].

Definition countOf (n : Z) (count : list (Z * Z)) : nat :=
  length (filter (fun el => el = n) (map snd count)).

(** The second component is the array after the call. *)
Definition getRank (cards : list Card) : Outcome Z * list Card :=
  match isStraight cards with
  | (Thrown e, cards) => (Thrown e, cards)
  | (Returned AreStraight, cards) =>
      let AreFlush := isFlush cards in
      let counts := countByRank cards in
      let royal :=
        if AreStraight && AreFlush then isFlushRoyal cards
        else Returned false in
      match royal with
      | Thrown e => (Thrown e, cards)
      | Returned royal =>
          (Returned
             (if AreStraight && AreFlush && royal then ROYAL_FLUSH
              else if AreStraight && AreFlush then STRAIGHT_FLUSH
              else if isOfKind 4 counts then FOUR_OF_KIND
              else if isFullHouse cards counts then FULL_HOUSE
              else if AreFlush then FLUSH
              else if AreStraight then STRAIGHT
              else if isOfKind 3 counts then THREE_OF_KIND
              else if (countOf 2 counts =? 2)%nat then TWO_PAIR
              else if (countOf 2 counts =? 1)%nat then PAIR
              else HIGH_CARD),
           cards)
      end
  end.

(** Which of its two arguments a comparison returns. *)
Inductive Side : Type := NewSide | BestSide.

(** [a > b] on numbers where [None] is [NaN] or [undefined]. *)
Definition gtNum (a b : option Z) : bool :=
  match a, b with
  | Some x, Some y => x >? y
  | _, _ => false
  end.

Definition ltNum (a b : option Z) : bool := gtNum b a.

(** The keys of [count] whose count is [n], ascending. *)
Definition keysWithCount (n : Z) (count : list (Z * Z)) : list Z :=
  map fst (filter (fun kv => kv.2 = n) count).

Definition comparePairs (pairA pairB : list Card) : option Side :=
  let countNew := countByRank pairA in
  let countBest := countByRank pairB in
  let pairValueNew := head (keysWithCount 2 countNew) in
  let pairValueBest := head (keysWithCount 2 countBest) in
  if gtNum pairValueNew pairValueBest then Some NewSide
  else if ltNum pairValueNew pairValueBest then Some BestSide
  else None.

Definition descending (l : list Z) : list Z := sortBy (fun a b => b - a) l.

Definition compareTwoPairs (twoPairA twoPairB : list Card) : option Side :=
  let pairsNew := descending (keysWithCount 2 (countByRank twoPairA)) in
  let pairsBest := descending (keysWithCount 2 (countByRank twoPairB)) in
  if gtNum (pairsNew !! 0%nat) (pairsBest !! 0%nat) then Some NewSide
  else if ltNum (pairsNew !! 0%nat) (pairsBest !! 0%nat) then Some BestSide
  else if gtNum (pairsNew !! 1%nat) (pairsBest !! 1%nat) then Some NewSide
  else if ltNum (pairsNew !! 1%nat) (pairsBest !! 1%nat) then Some BestSide
  else None.

(** [compareThreeOfKind] ([n = 3]) and [compareFourOfKind] ([n = 4]). *)
Definition compareOfKind (n : Z) (handA handB : list Card) : option Side :=
  let pairsNew := descending (keysWithCount n (countByRank handA)) in
  let pairsBest := descending (keysWithCount n (countByRank handB)) in
  if gtNum (pairsNew !! 0%nat) (pairsBest !! 0%nat) then Some NewSide
  else if ltNum (pairsNew !! 0%nat) (pairsBest !! 0%nat) then Some BestSide
  else None.

Definition compareThreeOfKind := compareOfKind 3.
Definition compareFourOfKind := compareOfKind 4.

(** The [for] loop of [compareWithSameRank] over the positions of
    [newRank], both arrays sorted descending. *)
Fixpoint firstDifference (newRank bestRank : list Card) : Outcome Side :=
  match newRank with
  | [] => Returned BestSide
  | n :: newRank' =>
      match bestRank with
      | [] => Thrown (TypeError "Cannot read properties of undefined")
      | b :: bestRank' =>
          if value n - value b >? 0 then Returned NewSide
          else if value n - value b <? 0 then Returned BestSide
          else firstDifference newRank' bestRank'
      end
  end.

(** The comparison that applies to [rank], if any, and its verdict. *)
Definition rankComparison (rank : option Z) (newCards bestCards : list Card)
    : option Side :=
  let byPair :=
    if bool_decide (rank = Some PAIR) then comparePairs newCards bestCards
    else None in
  let byTwoPair :=
    if bool_decide (rank = Some TWO_PAIR)
    then compareTwoPairs newCards bestCards else None in
  let byThree :=
    if bool_decide (rank = Some THREE_OF_KIND)
    then compareThreeOfKind newCards bestCards else None in
  let byFour :=
    if bool_decide (rank = Some FOUR_OF_KIND)
    then compareFourOfKind newCards bestCards else None in
  match byPair, byTwoPair, byThree, byFour with
  | Some s, _, _, _ => Some s
  | None, Some s, _, _ => Some s
  | None, None, Some s, _ => Some s
  | None, None, None, o => o
  end.

Definition byValueDesc (a b : Card) : Z := value b - value a.

(** [bestRank] is [None] when the caller passes [undefined], [rank] when
    it passes no third argument. *)
Definition compareWithSameRank (newRank : Addr) (bestRank : option Addr)
    (rank : option Z) : M Addr :=
  let pick (s : Side) (best : Addr) : Addr :=
    match s with NewSide => newRank | BestSide => best end in
  let* newCards := readArr newRank in
  let* early :=
    match rank with
    | None => ret None
    | Some r =>
        if bool_decide (r = PAIR) || bool_decide (r = TWO_PAIR)
           || bool_decide (r = THREE_OF_KIND) || bool_decide (r = FOUR_OF_KIND)
        then
          match bestRank with
          | None => throw (TypeError "Cannot read properties of undefined")
          | Some best =>
              let* bestCards := readArr best in
              ret (option_map (fun s => pick s best)
                     (rankComparison rank newCards bestCards))
          end
        else ret None
    end in
  match early with
  | Some a => ret a
  | None =>
      let* _ := writeArr newRank (sortBy byValueDesc newCards) in
      match bestRank with
      | None => throw (TypeError "Cannot read properties of undefined")
      | Some best =>
          let* bestCards := readArr best in
          let* _ := writeArr best (sortBy byValueDesc bestCards) in
          let* newSorted := readArr newRank in
          let* bestSorted := readArr best in
          let* s := lift (firstDifference newSorted bestSorted) in
          ret (pick s best)
      end
  end.

(** [getRank(curr)] on the array object [curr]. *)
Definition getRankAt (curr : Addr) : M Z :=
  let* cards := readArr curr in
  let '(o, cards') := getRank cards in
  let* _ := writeArr curr cards' in
  lift o.

(** The loop over [i] in [getAllCombinations], given the combinations
    that [recur] finds in a tail. *)
Definition combinationsFrom (recur : Addr -> M (list Addr)) (cs : list Card)
    (result : list Addr) (i : nat) : M (list Addr) :=
  let* head := alloc (slice cs (Z.of_nat i) (Z.of_nat i + 1)) in
  let* rest := alloc (sliceFrom cs (Z.of_nat i + 1)) in
  let* tail := recur rest in
  foldM (fun result tailj =>
           let* hd := readArr head in
           let* tl := readArr tailj in
           let* combination := alloc (hd ++ tl) in
           ret (result ++ [combination]))
        tail result.

Fixpoint getAllCombinations (cards : Addr) (combinationLength : nat)
    {struct combinationLength} : M (list Addr) :=
  let* cs := readArr cards in
  if (length cs <? combinationLength)%nat || (combinationLength <? 1)%nat
  then ret []
  else if (combinationLength =? length cs)%nat then ret [cards]
  else if (combinationLength =? 1)%nat then
    foldM (fun result card =>
             let* one := alloc [card] in ret (result ++ [one])) cs []
  else
    match combinationLength with
    | O => ret []
    | S shorter =>
        foldM (combinationsFrom (fun rest => getAllCombinations rest shorter) cs)
              (seq 0 (length cs - combinationLength + 1)) []
    end.

(** The accumulator object of [bestRank]. *)
Record BestHand : Type := mkBestHand { bestCards : Addr; bestRankOf : Z }.

Definition bestRank (playerCards tableCards : Addr) : M BestHand :=
  let* pc := readArr playerCards in
  let* tc := readArr tableCards in
  let* allCards := alloc (pc ++ tc) in
  let* allCombinations := getAllCombinations allCards 5 in
  let* empty := alloc [] in
  foldM (fun acc curr =>
           let* newRank := getRankAt curr in
           if bestRankOf acc <? newRank then
             ret {| bestCards := curr; bestRankOf := newRank |}
           else if bestRankOf acc =? newRank then
             let* winner :=
               compareWithSameRank curr (Some (bestCards acc)) (Some newRank) in
             ret {| bestCards := winner; bestRankOf := newRank |}
           else ret acc)
        allCombinations {| bestCards := empty; bestRankOf := 0 |}.

(** An element of the array that [showdown] passes to [compareHands]. *)
Record Entry : Type := mkEntry {
  player : Player;
  bestHand : Addr;
  evaluationRank : Z
}.

#[global] Instance Entry_eq_dec : EqDecision Entry.
Proof. solve_decision. Defined.

(** The variable [bestHand] of [compareHands] first holds an entry, then
    what [compareWithSameRank] returns, an array. *)
Inductive EntryOrArray : Type :=
  | AnEntry (e : Entry)
  | AnArray (a : Addr).

#[global] Instance EntryOrArray_eq_dec : EqDecision EntryOrArray.
Proof. solve_decision. Defined.

(** [x.bestHand]: an array has no such property. *)
Definition bestHandOf (x : EntryOrArray) : option Addr :=
  match x with
  | AnEntry e => Some (bestHand e)
  | AnArray _ => None
  end.

(** [n.toString()] of an integer. *)
Definition toString (n : Z) : string := NilZero.string_of_int (Z.to_int n).

(** [a > b] on strings: code unit by code unit. *)
Definition gtString (a b : string) : bool := String.ltb b a.

(** [keys.reduce((a, b) => a > b ? a : b)] *)
Definition maxKeyOf (keys : list string) : Outcome string :=
  match keys with
  | [] => Thrown (TypeError "Reduce of empty array with no initial value")
  | k :: rest =>
      Returned (foldl (fun a b => if gtString a b then a else b) k rest)
  end.

(** [count[maxKey]] *)
Definition countAt (count : list (Z * Z)) (key : string) : option Z :=
  snd <$> List.find (fun kv => bool_decide (toString kv.1 = key)) count.

Definition byRankDesc (a b : Entry) : Z := evaluationRank b - evaluationRank a.

(** Returns the winner ([None] for [undefined]). The array [hands] is
    sorted in place as well; callers do not use it afterwards. *)
Definition compareHands (hands : list Entry) : M (option Entry) :=
  let hands := sortBy byRankDesc hands in
  let count :=
    foldl (fun acc curr => bump (evaluationRank curr) acc) [] hands in
  let* maxKey := lift (maxKeyOf (map (fun kv => toString kv.1) count)) in
  let winner := hands !! 0%nat in
  if gtNum (countAt count maxKey) (Some 1) then
    let sameRankHands :=
      filter (fun h => toString (evaluationRank h) = maxKey) hands in
    match sameRankHands with
    | [] => ret None
    | first :: others =>
        let* best :=
          foldM (fun best h =>
                   let* a := compareWithSameRank (bestHand h) (bestHandOf best)
                               None in
                   ret (AnArray a))
                others (AnEntry first) in
        ret (List.find
               (fun h => bool_decide (AnArray (bestHand h) = best)) hands)
    end
  else ret winner.

(** The evaluations that [showdown] builds for [compareHands]: for each
    player, given with the array of their hole cards, the best hand that
    [bestRank] finds with the community cards and its rank. *)
Definition evaluations (tableCard : Addr) (seats : list (Player * Addr))
    : M (list Entry) :=
  foldM (fun acc seat =>
           let* best := bestRank seat.2 tableCard in
           ret (acc ++ [{| player := seat.1; bestHand := bestCards best;
                           evaluationRank := bestRankOf best |}]))
        seats [].

Definition showdownWinner (tableCard : Addr) (seats : list (Player * Addr))
    : M (option Entry) :=
  let* hands := evaluations tableCard seats in
  compareHands hands.

Definition alice : Player := createPlayer "a" "Alice" 1000.
Definition bob : Player := createPlayer "b" "Bob" 1000.
Definition charlie : Player := createPlayer "c" "Charlie" 1000.

(** Board 10s Js Qs 2h 2d; Alice holds Ks As (royal flush), Bob 3c 4c and
    Charlie 5c 7d (a pair of deuces each). *)
Definition royalBoard : Heap :=
  [ [createCard R10 Spades; createCard RJ Spades; createCard RQ Spades;
     createCard R2 Hearts; createCard R2 Diamonds];
    [createCard RK Spades; createCard RA Spades];
    [createCard R3 Clubs; createCard R4 Clubs];
    [createCard R5 Clubs; createCard R7 Diamonds] ].

(** Board 2d 9c 8h 5s 4d; Alice holds Kh Kc (pair of kings), Bob As 2s
    (pair of deuces, ace kicker). *)
Definition kingsBoard : Heap :=
  [ [createCard R2 Diamonds; createCard R9 Clubs; createCard R8 Hearts;
     createCard R5 Spades; createCard R4 Diamonds];
    [createCard RK Hearts; createCard RK Clubs];
    [createCard RA Spades; createCard R2 Spades] ].

(** Board 2d 9c 8h 5s Kd; Alice holds Ah 3c, Bob As 4c, Charlie Ac 6h:
    three hands of rank high card. *)
Definition highCardBoard : Heap :=
  [ [createCard R2 Diamonds; createCard R9 Clubs; createCard R8 Hearts;
     createCard R5 Spades; createCard RK Diamonds];
    [createCard RA Hearts; createCard R3 Clubs];
    [createCard RA Spades; createCard R4 Clubs];
    [createCard RA Clubs; createCard R6 Hearts] ].

(** ** models/Decks.js: shuffling, filters and counts *)

(** [[a[i], a[j]] = [a[j], a[i]]] for two positions of the array. *)
Definition swap {A} (l : list A) (i j : nat) : list A :=
  match l !! i, l !! j with
  | Some x, Some y => <[j := x]> (<[i := y]> l)
  | _, _ => l
  end.

(** The loop of [shuffleDeck] from position [i] down to 1. The integer
    [Math.floor(Math.random() * (i + 1))] lies between 0 and [i]; the
    number that [pick i] supplies for it is reduced to that range. *)
Fixpoint shuffleFrom (pick : nat -> nat) (i : nat) (l : list Card)
    : list Card :=
  match i with
  | O => l
  | S i' => shuffleFrom pick i' (swap l i (pick i mod (i + 1))%nat)
  end.

Definition shuffleDeck (pick : nat -> nat) (deck : Deck) : Deck :=
  let shuffledCards := shuffleFrom pick (length (cards deck) - 1) (cards deck) in
  {| cards := shuffledCards; remaining := Z.of_nat (length shuffledCards) |}.

Definition filterBySuit (deck : Deck) (s : Suit) : list Card :=
  filter (fun card => suit card = s) (cards deck).

Definition filterByRank (deck : Deck) (r : Rank) : list Card :=
  filter (fun card => rank card = r) (cards deck).

(** [countBySuit]: an object keyed by suit symbols, which are strings, so
    that its keys stand in the order of their first insertion. *)
Fixpoint bumpSuit (s : Suit) (m : list (Suit * Z)) : list (Suit * Z) :=
  match m with
  | [] => [(s, 1)]
  | (s', n) :: m' =>
      if decide (s' = s) then (s', n + 1) :: m' else (s', n) :: bumpSuit s m'
  end.

Definition countBySuit (cards : list Card) : list (Suit * Z) :=
  foldl (fun acc card => bumpSuit (suit card) acc) [] cards.

(** [count[key]] on the two kinds of count objects; [None] is [undefined]. *)
Definition suitCount (count : list (Suit * Z)) (s : Suit) : option Z :=
  snd <$> List.find (fun kv => bool_decide (kv.1 = s)) count.

Definition rankCount (count : list (Z * Z)) (v : Z) : option Z :=
  snd <$> List.find (fun kv => bool_decide (kv.1 = v)) count.


(** ** models/Players.js: winnings, leader and pot *)

Definition addWiningMoney (player : Player) (money : Z) : Player :=
  {| id := id player; name := name player; chips := chips player + money;
     hand := hand player; currentBet := currentBet player;
     hasFolded := hasFolded player; isInAllIn := isInAllIn player;
     frozen := true |}.

(** What the accumulator of [getLeader] can hold: the first player, a
    number, or [NaN]. *)
Inductive Leader : Type :=
  | LeaderPlayer (p : Player)
  | LeaderNumber (z : Z)
  | LeaderNaN.

(** [acc.chips]: a number has no such property. *)
Definition chipsOf (acc : Leader) : option Z :=
  match acc with
  | LeaderPlayer p => Some (chips p)
  | LeaderNumber _ => None
  | LeaderNaN => None
  end.

(** [Math.max(a, b)], where [None] is [undefined]: the result is [NaN]
    unless both are numbers. *)
Definition mathMax (a b : option Z) : Leader :=
  match a, b with
  | Some x, Some y => LeaderNumber (Z.max x y)
  | _, _ => LeaderNaN
  end.

(** [players.reduce((acc, cur) => acc = Math.max(acc.chips, cur.chips))],
    without an initial value. *)
Definition getLeader (players : list Player) : Outcome Leader :=
  match players with
  | [] => Thrown (TypeError "Reduce of empty array with no initial value")
  | first :: rest =>
      Returned (foldl (fun acc cur => mathMax (chipsOf acc) (Some (chips cur)))
                      (LeaderPlayer first) rest)
  end.

Definition getPot (players : list Player) : Z :=
  foldl (fun acc currPlayer => acc + currentBet currPlayer) 0 players.


(** ** services/DealService.js: community cards *)

Definition withTable (g : Game) (t : list Card) : Game :=
  {| players := players g; deck := deck g; tableCard := t; pot := pot g;
     currentPhase := currentPhase g; currentBet_ := currentBet_ g;
     bigBlindPos := bigBlindPos g; smallBlindPos := smallBlindPos g;
     smallBlind := smallBlind g; bigBlind := bigBlind g |}.

(** [const {dealtCards, remainingDeck} = dealCards(game.deck, 1);
    game.deck = remainingDeck;] and the card dealt, [dealtCards[0]]
    ([None] for [undefined]). *)
Definition drawOne (g : Game) : Outcome (option Card) * Game :=
  match deck g with
  | None => (Thrown (TypeError "Cannot read properties of null"), g)
  | Some d =>
      match dealCards d 1 with
      | Thrown e => (Thrown e, g)
      | Returned r =>
          (Returned (dealtCards r !! 0%nat), withDeck g (remainingDeck r))
      end
  end.

(** [game.tableCard = [...game.tableCard, dealtCards[0]]] after a draw. In
    both callers the draw follows a burn, whose remaining deck has as many
    cards as it says, so that a card is always there. *)
Definition revealOne (g : Game) : Outcome unit * Game :=
  match drawOne g with
  | (Thrown e, g1) => (Thrown e, g1)
  | (Returned (Some c), g1) => (Returned tt, withTable g1 (tableCard g1 ++ [c]))
  | (Returned None, g1) => (Returned tt, g1)
  end.

Fixpoint revealMany (n : nat) (g : Game) : Outcome unit * Game :=
  match n with
  | O => (Returned tt, g)
  | S n' =>
      match revealOne g with
      | (Thrown e, g1) => (Thrown e, g1)
      | (Returned _, g1) => revealMany n' g1
      end
  end.

Definition dealTableFlop (g : Game) : Outcome unit * Game :=
  match drawOne g with
  | (Thrown e, g1) => (Thrown e, g1)
  | (Returned _, g1) => revealMany 3 g1
  end.

Definition dealTableOneCard (g : Game) : Outcome unit * Game :=
  let g0 := withCurrentBet g 0 in
  match drawOne g0 with
  | (Thrown e, g1) => (Thrown e, g1)
  | (Returned _, g1) => revealOne g1
  end.

(** ** services/GameService.js: a hand won without showdown *)

(** [game.players.findIndex(p => p.id === pid)] *)
Fixpoint findIndexById (pid : string) (ps : list Player) : Z :=
  match ps with
  | [] => -1
  | p :: ps' =>
      if bool_decide (id p = pid) then 0
      else let i := findIndexById pid ps' in if i <? 0 then -1 else i + 1
  end.

(** [game.players[i] = p] for the result of [findIndex]: at -1 the
    assignment makes a property of the array object, not an element. *)
Definition assignSeat (g : Game) (i : Z) (p : Player) : Game :=
  if i <? 0 then g else setPlayer g i p.

(** [{ ...winner, chips: winner.chips + pot }]: a fresh object. *)
Definition awarded (winner : Player) (pot : Z) : Player :=
  {| id := id winner; name := name winner; chips := chips winner + pot;
     hand := hand winner; currentBet := currentBet winner;
     hasFolded := hasFolded winner; isInAllIn := isInAllIn winner;
     frozen := false |}.

Definition resolveWinner (g : Game) : Outcome unit * Game :=
  match getActivePlayers (players g) !! 0%nat with
  | None => (Thrown (TypeError "Cannot read properties of undefined"), g)
  | Some winner =>
      let winnerIdx := findIndexById (id winner) (players g) in
      (Returned tt, assignSeat g winnerIdx (awarded winner (pot g)))
  end.


(** ** Vocabulary of the statements *)

(** A card as [createCard] builds it: its value is the position of its
    rank, from 2 for the deuce to 14 for the ace. *)
Definition validCard (c : Card) : Prop := value c = indexOf (rank c) RANKS + 2.

(** Each value is one more than the value before it. *)
Definition stepsOfOne (vs : list Z) : Prop :=
  forall i a b, vs !! i = Some a -> vs !! S i = Some b -> b - a = 1.

(** The shape of a straight, on the values in ascending order. *)
Definition straightValues (vs : list Z) : Prop :=
  stepsOfOne vs \/ vs = [2; 3; 4; 5; 14].

Definition oneSuit (cards : list Card) : Prop :=
  exists s, Forall (fun c => suit c = s) cards.

(** The values held by the array at [a]. *)
Definition valuesOf (h : Heap) (a : Addr) : list Z :=
  value <$> default [] (h !! a).

(** Running [m] on a heap of at least [n] arrays leaves the arrays below
    [n] as they are, allocated arrays stay allocated, and a returned value
    satisfies [Q]. *)
Definition spares {A} (n : nat) (m : M A) (Q : A -> Prop) : Prop :=
  forall h, (n <= length h)%nat ->
    (length h <= length (m h).2)%nat
    /\ (forall a, (a < n)%nat -> (m h).2 !! a = h !! a)
    /\ (forall x, (m h).1 = Returned x -> Q x).

Definition allAbove (n : nat) (l : list Addr) : Prop :=
  Forall (fun a => (n <= a)%nat) l.

(** [m] on the heap [h] returns [x] and leaves the heap [h']. *)
Definition runs {A} (m : M A) (h : list (list Card)) (x : A)
    (h' : list (list Card)) : Prop :=
  m h = (Returned x, h').

(** The array at [a] exists and holds [k] elements. *)
Definition hasLen (h : list (list Card)) (a : nat) (k : nat) : Prop :=
  exists cs, h !! a = Some cs /\ length cs = k.

(** Every array of [h] is an array of the same length in [h']. *)
Definition sameLens (h h' : list (list Card)) : Prop :=
  forall a k, hasLen h a k -> hasLen h' a k.

(** A deck as [createDeck], [shuffleDeck] and [dealCards] build it: the
    [remaining] field is the length of [cards]. *)
Definition deck_wf (d : Deck) : Prop := remaining d = Z.of_nat (length (cards d)).

(** The chips that an action asks of the player, as [call] and [raise]
    compute them. *)
Definition requiredChips (g : Game) (player : Player) (action : Action)
    : option Z :=
  match action with
  | ACall _ => Some (currentBet_ g - currentBet player)
  | ARaise target => Some (target - currentBet player)
  | _ => None
  end.

(** One pass of [dealPlayers] hands the seats their cards in seat order. *)
Definition dealRound (ps : list Player) (cs : list Card) : list Player :=
  zip_with (fun p c => giveCard (HArray [c]) p) ps cs.

(** The wheel of the fixtures: ace of spades, 2 of hearts, 3 of diamonds,
    4 of clubs, 5 of spades. *)
Definition wheel : list Card :=
  [createCard RA Spades; createCard R2 Hearts; createCard R3 Diamonds;
   createCard R4 Clubs; createCard R5 Spades].

(** The round after a pass that processed an action (or skipped a seat). *)
Definition processed (s : Step) : option Round :=
  match s with
  | Continue r => Some r
  | Break r => Some r
  | Abort _ _ => None
  end.

(** Seat by seat, [g'] holds the players of [g] under the same ids, and
    whoever had folded in [g] is still folded in [g']. *)
Definition sameSeats (g g' : Game) : Prop :=
  length (players g) = length (players g')
  /\ forall i p p', players g !! i = Some p -> players g' !! i = Some p' ->
       id p = id p' /\ (hasFolded p = true -> hasFolded p' = true).

(** The chips in the stacks of all players. *)
Definition totalChips (players : list Player) : Z :=
  foldl (fun acc p => acc + chips p) 0 players.


(** The big blind sits one seat after the small blind, round the table;
    before the first hand the small blind is at -1. *)
Definition blindsInOrder (g : Game) : Prop :=
  let n := Z.of_nat (length (players g)) in
  -1 <= smallBlindPos g < n
  /\ bigBlindPos g = Z.rem (smallBlindPos g + 1) n.


(** * Properties *)

Lemma createDeck_wf : deck_wf createDeck.
Proof. reflexivity. Qed.

Lemma createDeck_52 : remaining createDeck = 52.
Proof. reflexivity. Qed.

Lemma dealCards_wf d k r : dealCards d k = Returned r -> deck_wf (remainingDeck r).
Proof.
  unfold dealCards. destruct (k >? remaining d); [discriminate|].
  intros [= <-]. reflexivity.
Qed.

Lemma slice_prefix {A} (l : list A) (k : Z) :
  0 <= k <= Z.of_nat (length l) -> slice l 0 k = take (Z.to_nat k) l.
Proof.
  intros Hk. unfold slice, relIndex. simpl.
  destruct (k <? 0) eqn:E; [lia|].
  rewrite drop_0. f_equal. lia.
Qed.

Lemma sliceFrom_suffix {A} (l : list A) (k : Z) :
  0 <= k <= Z.of_nat (length l) -> sliceFrom l k = drop (Z.to_nat k) l.
Proof.
  intros Hk. unfold sliceFrom, relIndex.
  destruct (k <? 0) eqn:E; [lia|]. f_equal. lia.
Qed.

(** ** Decks *)

(** C9. Dealing [k] cards from a deck with at least [k] cards succeeds and
    returns the first [k] cards in order with a new deck holding the
    remaining [remaining - k] cards; asking for more than [remaining]
    cards fails with an error. The function makes no assignment to its
    argument, which is a value of the embedding. *)
Theorem dealCards_spec (D : Deck) (k : Z) :
  deck_wf D -> 0 <= k ->
  (k <= remaining D ->
     exists r, dealCards D k = Returned r
       /\ dealtCards r = take (Z.to_nat k) (cards D)
       /\ Z.of_nat (length (dealtCards r)) = k
       /\ cards (remainingDeck r) = drop (Z.to_nat k) (cards D)
       /\ cards D = dealtCards r ++ cards (remainingDeck r)
       /\ Z.of_nat (length (cards (remainingDeck r))) = remaining D - k
       /\ remaining (remainingDeck r) = remaining D - k)
  /\ (k > remaining D -> exists msg, dealCards D k = Thrown (Error msg)).
Proof.
  unfold deck_wf. intros Hwf Hk. split.
  - intros Hle. unfold dealCards.
    destruct (k >? remaining D) eqn:E; [lia|].
    eexists. split; [reflexivity|]. simpl.
    rewrite slice_prefix, sliceFrom_suffix by lia.
    rewrite length_take, length_drop, take_drop.
    repeat split; lia.
  - intros Hgt. unfold dealCards.
    destruct (k >? remaining D) eqn:E; [eauto|lia].
Qed.

Lemma dealCards_spec_witness :
  exists r, dealCards createDeck 5 = Returned r
    /\ dealtCards r = take 5 (cards createDeck)
    /\ remaining (remainingDeck r) = 47.
Proof.
  destruct (dealCards_spec createDeck 5 createDeck_wf ltac:(lia)) as [H _].
  destruct H as (r & Hr & Ht & _ & _ & _ & _ & Hrem).
  - rewrite createDeck_52. lia.
  - exists r. rewrite createDeck_52 in Hrem. auto.
Defined.

(** ** Players: bets *)

Lemma placeBet_covered player amount :
  hasFolded player = false -> amount < chips player ->
  placeBet player amount = (Returned (afterBet player amount), player).
Proof.
  intros Hf Hlt. unfold placeBet. rewrite Hf.
  destruct (amount >? chips player) eqn:E1; [lia|].
  destruct (chips player =? amount) eqn:E2; [lia|]. reflexivity.
Qed.

Lemma placeBet_all_in_unfrozen player :
  hasFolded player = false -> frozen player = false ->
  placeBet player (chips player) =
    (Returned (afterBet (markAllIn player) (chips player)), markAllIn player).
Proof.
  intros Hf Hfr. unfold placeBet. rewrite Hf, Hfr.
  destruct (chips player >? chips player) eqn:E1; [lia|].
  rewrite Z.eqb_refl. reflexivity.
Qed.

Lemma placeBet_all_in_frozen player :
  hasFolded player = false -> frozen player = true ->
  exists msg, placeBet player (chips player) = (Thrown (TypeError msg), player).
Proof.
  intros Hf Hfr. unfold placeBet. rewrite Hf, Hfr.
  destruct (chips player >? chips player) eqn:E1; [lia|].
  rewrite Z.eqb_refl. eauto.
Qed.

Lemma placeBet_short player amount :
  amount > chips player ->
  exists msg, placeBet player amount = (Thrown (Error msg), player).
Proof.
  intros Hgt. unfold placeBet. destruct (hasFolded player); [eauto|].
  destruct (amount >? chips player) eqn:E1; [eauto|lia].
Qed.

(** Whatever its outcome, [placeBet] leaves the identity, the folded flag
    and the per-phase bet of its argument alone, and a failed call leaves
    the whole argument as it was. *)
Lemma placeBet_argument player amount o player' :
  placeBet player amount = (o, player') ->
  id player' = id player /\ hasFolded player' = hasFolded player
  /\ currentBet player' = currentBet player
  /\ (isReturned o = false -> player' = player).
Proof.
  unfold placeBet.
  destruct (hasFolded player) eqn:Hf; [intros [=]; subst; auto|].
  destruct (amount >? chips player); [intros [=]; subst; auto|].
  destruct (chips player =? amount); [destruct (frozen player)|];
    intros [=]; subst; simpl; auto; repeat split; auto; discriminate.
Qed.

Lemma placeBet_result player amount p' player' :
  placeBet player amount = (Returned p', player') ->
  id p' = id player /\ hasFolded p' = false /\ hasFolded player = false
  /\ chips p' = chips player - amount
  /\ currentBet p' = currentBet player + amount
  /\ amount <= chips player.
Proof.
  unfold placeBet.
  destruct (hasFolded player) eqn:Hf; [discriminate|].
  destruct (amount >? chips player) eqn:E1; [discriminate|].
  destruct (chips player =? amount) eqn:E2;
    [destruct (frozen player); [discriminate|]|];
    intros [=]; subst; simpl; repeat split; auto; lia.
Qed.

(** The seat already holds [p]: writing [p] to it changes nothing. *)
Lemma setPlayer_same g i p : at_ (players g) i = Some p -> setPlayer g i p = g.
Proof.
  unfold at_, setPlayer, withPlayers. destruct (i <? 0); [discriminate|].
  intros H. rewrite list_insert_id by exact H. destruct g; reflexivity.
Qed.

(** The part of the call rule that the code delivers: a call that the
    stack covers with chips to spare moves the amount from the stack to
    the per-phase bet, and the pot grows by the amount the action names. *)
Lemma call_covered g player amount idx :
  hasFolded player = false ->
  currentBet_ g - currentBet player < chips player ->
  exists g', processAction g player (ACall amount) idx = (Returned tt, g')
    /\ pot g' = pot g + amount
    /\ currentBet_ g' = currentBet_ g
    /\ (at_ (players g) idx = Some player ->
        at_ (players g') idx
          = Some (afterBet player (currentBet_ g - currentBet player))).
Proof.
  intros Hf Hlt. unfold processAction, call.
  rewrite placeBet_covered by assumption.
  eexists. split; [reflexivity|]. simpl. repeat split.
  unfold at_. destruct (idx <? 0) eqn:E; [discriminate|].
  intros H. rewrite list_insert_insert_eq.
  apply list_lookup_insert_eq. eapply lookup_lt_Some; eauto.
Qed.

(** C3. A player fresh from [createPlayer] is a frozen object; a call for
    exactly their stack reaches [player.isInAllIn = true], which throws,
    so the call fails where it should have produced an all-in player. *)
Theorem call_whole_stack_throws :
  let P := createPlayer "p1" "Alice" 20 in
  hasFolded P = false
  /\ 20 - currentBet P = chips P
  /\ call P 20
     = (Thrown (TypeError "Cannot assign to read only property 'isInAllIn'"), P).
Proof. repeat split. Qed.

(** ** Actions *)

(** C4. A call or raise that needs more chips than the player holds
    throws, and the game object is then exactly as before the action:
    the seat of the player, the pot and the table bet are untouched. *)
Theorem invalid_bet_is_atomic g player action idx amount :
  at_ (players g) idx = Some player ->
  requiredChips g player action = Some amount ->
  amount > chips player ->
  exists msg, processAction g player action idx = (Thrown (Error msg), g).
Proof.
  intros Hat Hreq Hgt.
  destruct action as [| |a|t]; simpl in Hreq; try discriminate;
    injection Hreq as <-; unfold processAction, call, raise;
    destruct (placeBet_short player _ Hgt) as [msg ->];
    rewrite (setPlayer_same _ _ _ Hat); eauto.
Qed.

Lemma invalid_bet_is_atomic_witness :
  exists msg,
    processAction table3 (createPlayer "a" "Alice" 1000) (ARaise 5000) 0
    = (Thrown (Error msg), table3).
Proof.
  apply (invalid_bet_is_atomic table3 (createPlayer "a" "Alice" 1000)
           (ARaise 5000) 0 5000); [reflexivity | reflexivity | simpl; lia].
Defined.

(** ** Blinds *)

Lemma postBlind_covered g pos amount player :
  at_ (players g) pos = Some player ->
  hasFolded player = false -> amount < chips player ->
  postBlind g pos amount
  = (Returned tt, setPlayer g pos (afterBet player amount)).
Proof.
  intros Hat Hf Hlt. unfold postBlind. rewrite Hat.
  rewrite placeBet_covered by assumption.
  rewrite (setPlayer_same _ _ _ Hat). reflexivity.
Qed.

Lemma postBlind_short g pos amount player :
  at_ (players g) pos = Some player -> amount > chips player ->
  exists msg, postBlind g pos amount = (Thrown (Error msg), g).
Proof.
  intros Hat Hgt. unfold postBlind. rewrite Hat.
  destruct (placeBet_short player amount Hgt) as [msg ->].
  rewrite (setPlayer_same _ _ _ Hat). eauto.
Qed.

Lemma at_setPlayer_ne g i j p :
  0 <= i -> 0 <= j -> i ≠ j ->
  at_ (players (setPlayer g i p)) j = at_ (players g) j.
Proof.
  intros Hi Hj Hne. unfold at_, setPlayer. simpl.
  destruct (j <? 0); [reflexivity|].
  apply list_lookup_insert_ne. lia.
Qed.

Lemma at_nonneg {A} (l : list A) i x : at_ l i = Some x -> 0 <= i.
Proof. unfold at_. destruct (i <? 0) eqn:E; [discriminate|lia]. Qed.

(** C5, as the code has it. [blindBet] posts each blind through
    [placeBet] and so applies the stack check: when the two blind seats
    are different, not folded and hold more chips than their blind, the
    blinds are taken, the pot becomes [smallBlind + bigBlind] and the table
    bet [bigBlind]; when a blind exceeds the stack of its player,
    [blindBet] throws and leaves the pot and the table bet as they were. *)
Theorem blindBet_checks_stacks g bbP sbP :
  at_ (players g) (bigBlindPos g) = Some bbP ->
  at_ (players g) (smallBlindPos g) = Some sbP ->
  bigBlindPos g ≠ smallBlindPos g ->
  hasFolded bbP = false -> hasFolded sbP = false ->
  (bigBlind g < chips bbP -> smallBlind g < chips sbP ->
     exists g', blindBet g = (Returned tt, g')
       /\ at_ (players g') (bigBlindPos g) = Some (afterBet bbP (bigBlind g))
       /\ at_ (players g') (smallBlindPos g) = Some (afterBet sbP (smallBlind g))
       /\ pot g' = smallBlind g + bigBlind g
       /\ currentBet_ g' = bigBlind g)
  /\ (bigBlind g > chips bbP
      \/ (bigBlind g < chips bbP /\ smallBlind g > chips sbP) ->
     exists msg g', blindBet g = (Thrown (Error msg), g')
       /\ pot g' = pot g /\ currentBet_ g' = currentBet_ g).
Proof.
  intros Hbb Hsb Hne Hfb Hfs.
  pose proof (at_nonneg _ _ _ Hbb) as H0b.
  pose proof (at_nonneg _ _ _ Hsb) as H0s.
  assert (Hsb' : forall p, at_ (players (setPlayer g (bigBlindPos g) p))
                        (smallBlindPos g) = Some sbP).
  { intros p. rewrite at_setPlayer_ne; auto. }
  split.
  - intros Hcb Hcs. unfold blindBet.
    rewrite (postBlind_covered _ _ _ _ Hbb Hfb Hcb).
    change (smallBlindPos (setPlayer g _ _)) with (smallBlindPos g).
    change (smallBlind (setPlayer g _ _)) with (smallBlind g).
    rewrite (postBlind_covered _ _ _ _ (Hsb' _) Hfs Hcs).
    eexists. split; [reflexivity|]. simpl. repeat split.
    + unfold at_ in *. destruct (bigBlindPos g <? 0); [discriminate|].
      rewrite list_lookup_insert_ne by lia.
      apply list_lookup_insert_eq. eapply lookup_lt_Some; eauto.
    + unfold at_ in *. destruct (smallBlindPos g <? 0); [discriminate|].
      apply list_lookup_insert_eq. rewrite length_insert.
      eapply lookup_lt_Some; eauto.
  - intros [Hshort | [Hcb Hshort]]; unfold blindBet.
    + destruct (postBlind_short _ _ _ _ Hbb Hshort) as [msg ->]. eauto.
    + rewrite (postBlind_covered _ _ _ _ Hbb Hfb Hcb).
      change (smallBlindPos (setPlayer g _ _)) with (smallBlindPos g).
      change (smallBlind (setPlayer g _ _)) with (smallBlind g).
      destruct (postBlind_short _ _ _ _
                  (Hsb' (afterBet bbP (bigBlind g))) Hshort) as [msg ->].
      eexists _, _. split; [reflexivity|]. split; reflexivity.
Qed.

Lemma blindBet_checks_stacks_witness :
  exists g', blindBet table3 = (Returned tt, g')
    /\ pot g' = 30 /\ currentBet_ g' = 20.
Proof.
  destruct (blindBet_checks_stacks table3 (createPlayer "b" "Bob" 1000)
              (createPlayer "a" "Alice" 1000)) as [H _];
    [reflexivity | reflexivity | discriminate | reflexivity | reflexivity |].
  destruct H as (g' & Hg & _ & _ & Hp & Hc);
    [reflexivity | reflexivity |].
  exists g'. auto.
Defined.

(** C5 as stated fails: the big blind of 20 exceeds Bob's 10 chips and
    [blindBet] throws instead of taking the blind. *)
Lemma blindBet_short_stack_throws :
  at_ (players shortTable) (bigBlindPos shortTable)
    = Some (createPlayer "b" "Bob" 10)
  /\ bigBlind shortTable = 20
  /\ blindBet shortTable
     = (Thrown (Error "has not enougth money to bet"), shortTable).
Proof. repeat split. Qed.

(** ** Dealing the hole cards *)

Lemma indexOf_nonneg_lt {A} `{EqDecision A} (x : A) (l : list A) :
  -1 <= indexOf x l < Z.of_nat (length l).
Proof.
  induction l as [|y l IH]; simpl; [lia|].
  destruct (decide (y = x)); [lia|].
  destruct (indexOf x l <? 0) eqn:E; lia.
Qed.

(** Seats hold objects with different ids, so [indexOf] finds the seat
    the object was read from. *)
Lemma playerIndexOf_seat ps k p :
  NoDup (map id ps) -> ps !! k = Some p -> playerIndexOf p ps = Z.of_nat k.
Proof.
  unfold playerIndexOf. revert k.
  induction ps as [|y ps IH]; intros k Hnd Hk; [discriminate|].
  simpl in Hnd. apply NoDup_cons in Hnd as [Hy Hnd]. simpl.
  destruct (decide (y = p)) as [->|Hne].
  - destruct k as [|k]; [reflexivity|]. simpl in Hk.
    exfalso. apply Hy. apply list_elem_of_fmap. exists p. split; [reflexivity|].
    eapply list_elem_of_lookup_2; eauto.
  - destruct k as [|k]; simpl in Hk; [congruence|].
    rewrite (IH k Hnd Hk).
    destruct (Z.of_nat k <? 0) eqn:E; lia.
Qed.

Lemma giveCard_fresh c p : giveCard c p ≠ p.
Proof.
  intros H. apply (f_equal (fun q => length (hand q))) in H. simpl in H.
  rewrite length_app in H. simpl in H. lia.
Qed.

Lemma map_id_insert ps k p q :
  ps !! k = Some p -> id q = id p -> map id (<[k := q]> ps) = map id ps.
Proof.
  intros Hk Hid.
  change (map id (<[k := q]> ps)) with (id <$> <[k := q]> ps).
  rewrite list_fmap_insert, Hid.
  apply list_insert_id. change (map id ps) with (id <$> ps).
  rewrite list_lookup_fmap, Hk. reflexivity.
Qed.

Lemma slice_head {A} (c : A) cs : slice (c :: cs) 0 1 = [c].
Proof. rewrite slice_prefix by (simpl; lia). reflexivity. Qed.

Lemma sliceFrom_tail {A} (c : A) cs : sliceFrom (c :: cs) 1 = cs.
Proof. rewrite sliceFrom_suffix by (simpl; lia). reflexivity. Qed.

Lemma dealOne_seat g k p d c cs :
  players g !! k = Some p -> deck g = Some d ->
  cards d = c :: cs -> 1 <= remaining d ->
  NoDup (map id (players g)) ->
  dealOne g k
  = (Returned tt,
     withPlayers
       (withDeck g {| cards := cs; remaining := Z.of_nat (length cs) |})
       (<[k := giveCard (HArray [c]) p]> (players g))).
Proof.
  intros Hk Hd Hc Hrem Hnd. unfold dealOne. rewrite Hk, Hd.
  unfold dealCards. destruct (1 >? remaining d) eqn:E; [lia|].
  rewrite Hc, slice_head, sliceFrom_tail. simpl.
  destruct (decide (giveCard (HArray [c]) p = p)) as [Heq|_];
    [destruct (giveCard_fresh _ _ Heq)|].
  rewrite (playerIndexOf_seat _ _ _ Hnd Hk).
  replace (Z.of_nat k >=? 0) with true by (symmetry; apply Z.geb_le; lia).
  unfold setPlayer. simpl. rewrite Nat2Z.id. reflexivity.
Qed.

Lemma dealPass_seats todo : forall done g d,
  players g = done ++ todo -> deck g = Some d -> deck_wf d ->
  Z.of_nat (length todo) <= remaining d ->
  NoDup (map id (players g)) ->
  exists g' d',
    dealPass (length todo) (length done) g = (Returned tt, g')
    /\ players g' = done ++ dealRound todo (take (length todo) (cards d))
    /\ deck g' = Some d' /\ deck_wf d'
    /\ cards d' = drop (length todo) (cards d).
Proof.
  induction todo as [|p todo IH]; intros done g d Hps Hd Hwf Hrem Hnd.
  - exists g, d. simpl. rewrite drop_0. rewrite Hps. auto.
  - unfold deck_wf in Hwf. simpl in Hrem.
    destruct (cards d) as [|c cs] eqn:Hc; [simpl in Hwf; lia|].
    assert (Hk : players g !! length done = Some p).
    { rewrite Hps. apply list_lookup_middle. reflexivity. }
    simpl dealPass.
    rewrite (dealOne_seat g _ p d c cs Hk Hd Hc ltac:(lia) Hnd).
    set (d1 := {| cards := cs; remaining := Z.of_nat (length cs) |}).
    set (p1 := giveCard (HArray [c]) p).
    set (g1 := withPlayers (withDeck g d1) (<[length done := p1]> (players g))).
    assert (Hps1 : players g1 = (done ++ [p1]) ++ todo).
    { simpl. rewrite Hps. rewrite insert_app_r_alt by lia.
      rewrite Nat.sub_diag. simpl. rewrite <- app_assoc. reflexivity. }
    assert (Hnd1 : NoDup (map id (players g1))).
    { simpl. rewrite (map_id_insert _ _ p) by auto. exact Hnd. }
    destruct (IH (done ++ [p1]) g1 d1 Hps1 eq_refl eq_refl) as
      (g' & d' & Hrun & Hps' & Hd' & Hwf' & Hc').
    { simpl. simpl in Hwf. lia. }
    { exact Hnd1. }
    exists g', d'. rewrite length_app in Hrun. simpl in Hrun.
    replace (length done + 1)%nat with (S (length done)) in Hrun by lia.
    split; [exact Hrun|]. split; [|auto].
    rewrite Hps'. simpl. rewrite <- app_assoc. reflexivity.
Qed.

Lemma dealRound_lookup ps cs k p :
  ps !! k = Some p -> (length ps <= length cs)%nat ->
  exists c, cs !! k = Some c
    /\ dealRound ps cs !! k = Some (giveCard (HArray [c]) p).
Proof.
  intros Hk Hlen.
  destruct (lookup_lt_is_Some_2 cs k) as [c Hc].
  { apply lookup_lt_Some in Hk. lia. }
  exists c. split; [exact Hc|].
  unfold dealRound. rewrite lookup_zip_with, Hk. simpl. rewrite Hc. reflexivity.
Qed.

Lemma dealRound_ids ps cs :
  (length ps <= length cs)%nat -> map id (dealRound ps cs) = map id ps.
Proof.
  revert cs. induction ps as [|p ps IH]; intros [|c cs] Hlen; simpl in *;
    try reflexivity; try lia.
  f_equal. apply IH. lia.
Qed.

(** C8. On a deck with two cards per player, [dealPlayers] succeeds and
    appends two elements to every hand: for the player in seat [k] the
    one-card arrays [[c1]] and [[c2]] (not the cards themselves) of the
    deck cards number [k] and [n + k]; a hand that was empty has exactly
    these two elements. *)
Theorem dealPlayers_hands g d :
  deck g = Some d -> deck_wf d ->
  2 * Z.of_nat (length (players g)) <= remaining d ->
  NoDup (map id (players g)) ->
  exists g', dealPlayers g = (Returned tt, g')
    /\ length (players g') = length (players g)
    /\ forall k p, players g !! k = Some p ->
         exists p' c1 c2,
           players g' !! k = Some p'
           /\ cards d !! k = Some c1
           /\ cards d !! (length (players g) + k)%nat = Some c2
           /\ hand p' = hand p ++ [HArray [c1]; HArray [c2]]
           /\ (hand p = [] -> length (hand p') = 2%nat).
Proof.
  intros Hd Hwf Hrem Hnd.
  set (n := length (players g)) in *.
  assert (Hlen : (2 * n <= length (cards d))%nat)
    by (unfold deck_wf in Hwf; lia).
  destruct (dealPass_seats (players g) [] g d eq_refl Hd Hwf ltac:(fold n; lia) Hnd)
    as (g1 & d1 & Hrun1 & Hps1 & Hd1 & Hwf1 & Hc1).
  simpl in Hrun1, Hps1. fold n in Hrun1, Hps1, Hc1.
  assert (Hn1 : length (players g1) = n).
  { rewrite Hps1. unfold dealRound. rewrite length_zip_with, length_take.
    fold n. lia. }
  assert (Hnd1 : NoDup (map id (players g1))).
  { rewrite Hps1, dealRound_ids; [exact Hnd|]. rewrite length_take. fold n. lia. }
  destruct (dealPass_seats (players g1) [] g1 d1 eq_refl Hd1 Hwf1) as
    (g2 & d2 & Hrun2 & Hps2 & _).
  { unfold deck_wf in Hwf1. rewrite Hwf1, Hc1, length_drop, Hn1. lia. }
  { exact Hnd1. }
  simpl in Hrun2, Hps2. rewrite Hn1 in Hrun2, Hps2.
  exists g2. split.
  { unfold dealPlayers. fold n. rewrite Hrun1, Hn1. exact Hrun2. }
  split.
  { rewrite Hps2. unfold dealRound at 1.
    rewrite length_zip_with, length_take, Hn1, Hc1, length_drop. lia. }
  intros k p Hk.
  assert (Hkn : (k < n)%nat) by (eapply lookup_lt_Some; eauto).
  destruct (dealRound_lookup (players g) (take n (cards d)) k p Hk) as
    (c1 & Hcs1 & Hp1); [rewrite length_take; fold n; lia|].
  rewrite <- Hps1 in Hp1.
  destruct (dealRound_lookup (players g1) (take n (cards d1)) k _ Hp1) as
    (c2 & Hcs2 & Hp2); [rewrite length_take, Hn1, Hc1, length_drop; lia|].
  rewrite <- Hps2 in Hp2.
  exists (giveCard (HArray [c2]) (giveCard (HArray [c1]) p)), c1, c2.
  split; [exact Hp2|].
  rewrite lookup_take_lt in Hcs1 by lia.
  rewrite lookup_take_lt, Hc1, lookup_drop in Hcs2 by lia.
  split; [exact Hcs1|]. split; [exact Hcs2|].
  split; [simpl; rewrite <- app_assoc; reflexivity|].
  intros He. simpl. rewrite He. reflexivity.
Qed.

Lemma dealPlayers_hands_witness :
  exists g', dealPlayers table3 = (Returned tt, g')
    /\ length (players g') = 3%nat.
Proof.
  destruct (dealPlayers_hands table3 createDeck eq_refl createDeck_wf)
    as (g' & Hg & Hl & _).
  - rewrite createDeck_52. simpl. lia.
  - apply (bool_decide_unpack _). vm_compute. exact I.
  - exists g'. auto.
Defined.

(** ** The betting loop *)

Lemma sameSeats_refl g : sameSeats g g.
Proof.
  split; [reflexivity|]. intros i p p' H1 H2.
  rewrite H1 in H2. injection H2 as <-. auto.
Qed.

Lemma sameSeats_trans g1 g2 g3 :
  sameSeats g1 g2 -> sameSeats g2 g3 -> sameSeats g1 g3.
Proof.
  intros [L1 H1] [L2 H2]. split; [congruence|].
  intros i p p'' Hp Hp''.
  destruct (lookup_lt_is_Some_2 (players g2) i) as [p' Hp'].
  { rewrite <- L1. eapply lookup_lt_Some; eauto. }
  destruct (H1 i p p' Hp Hp') as [E1 F1].
  destruct (H2 i p' p'' Hp' Hp'') as [E2 F2].
  split; [congruence|auto].
Qed.

Lemma sameSeats_ids g g' : sameSeats g g' ->
  map id (players g) = map id (players g').
Proof.
  intros [L H]. apply list_eq. intros i.
  change (map id ?l) with (id <$> l). rewrite !list_lookup_fmap.
  destruct (players g !! i) as [p|] eqn:Hp.
  - destruct (lookup_lt_is_Some_2 (players g') i) as [p' Hp'].
    { rewrite <- L. eapply lookup_lt_Some; eauto. }
    rewrite Hp'. simpl. f_equal. eapply H; eauto.
  - apply lookup_ge_None in Hp. rewrite L in Hp.
    apply lookup_ge_None in Hp. rewrite Hp. reflexivity.
Qed.

(** Overwriting a seat with a player of the same id who is folded if the
    previous occupant was. *)
Lemma sameSeats_setPlayer g idx p q :
  at_ (players g) idx = Some p -> id p = id q ->
  (hasFolded p = true -> hasFolded q = true) ->
  sameSeats g (setPlayer g idx q).
Proof.
  unfold at_. destruct (idx <? 0); [discriminate|]. intros Hp Hid Hf.
  split; [simpl; rewrite length_insert; reflexivity|].
  intros i p1 p2 H1 H2. simpl in H2.
  destruct (decide (Z.to_nat idx = i)) as [<-|Hne].
  - rewrite list_lookup_insert_eq in H2 by (eapply lookup_lt_Some; eauto).
    injection H2 as <-. rewrite Hp in H1. injection H1 as <-. auto.
  - rewrite list_lookup_insert_ne in H2 by exact Hne.
    rewrite H1 in H2. injection H2 as <-. auto.
Qed.

Lemma fold_result player p' :
  fold player = Returned p' -> id p' = id player /\ hasFolded p' = true.
Proof.
  unfold fold. destruct (hasFolded player); [discriminate|].
  intros [=]; subst. auto.
Qed.

(** A bet written to the seat of [player]: first the state of the
    argument object, then the returned object. *)
Lemma sameSeats_bet g idx player amount p' player' :
  at_ (players g) idx = Some player ->
  placeBet player amount = (Returned p', player') ->
  sameSeats g (setPlayer (setPlayer g idx player') idx p').
Proof.
  intros Hat Hbet.
  destruct (placeBet_argument _ _ _ _ Hbet) as (Ei & Ef & _).
  destruct (placeBet_result _ _ _ _ Hbet) as (Ei' & Ef' & Hnf & _).
  eapply sameSeats_trans.
  - apply (sameSeats_setPlayer g idx player player'); auto. congruence.
  - apply (sameSeats_setPlayer _ idx player' p'); try congruence.
    unfold at_ in *. destruct (idx <? 0); [discriminate|]. simpl.
    apply list_lookup_insert_eq. eapply lookup_lt_Some; eauto.
Qed.

Lemma processAction_seats g player action idx g' :
  at_ (players g) idx = Some player ->
  processAction g player action idx = (Returned tt, g') ->
  sameSeats g g'.
Proof.
  intros Hat. destruct action as [| |a|t]; simpl.
  - destruct (fold player) as [p'|] eqn:Hf; [|discriminate].
    intros [=]; subst. destruct (fold_result _ _ Hf).
    eapply sameSeats_setPlayer; eauto.
  - intros [=]; subst. apply sameSeats_refl.
  - unfold call. destruct (placeBet player _) as [[p'|e] player'] eqn:Hb;
      [|discriminate].
    intros [=]; subst. exact (sameSeats_bet _ _ _ _ _ _ Hat Hb).
  - unfold raise. destruct (placeBet player _) as [[p'|e] player'] eqn:Hb;
      [|discriminate].
    intros [=]; subst. exact (sameSeats_bet _ _ _ _ _ _ Hat Hb).
Qed.

Lemma processAction_raise_bet g player target idx g' :
  processAction g player (ARaise target) idx = (Returned tt, g') ->
  currentBet_ g' = target.
Proof.
  simpl. destruct (raise player target) as [[p'|e] player'];
    [|discriminate].
  intros [=]; subst. reflexivity.
Qed.

(** No own property of a player object is called [folded] or [allIn]. *)
Lemma skip_guard_never_fires player :
  truthy (getProp player "folded") || truthy (getProp player "allIn") = false.
Proof. reflexivity. Qed.

Section Loop.

Variable getAction : nat -> Game -> Player -> Action.

Lemma iteration_seats active r r' :
  processed (iteration getAction active r) = Some r' ->
  sameSeats (game r) (game r').
Proof.
  unfold iteration.
  destruct (at_ (players (game r)) (currentIdx r)) as [player|] eqn:Hat;
    [|discriminate].
  rewrite skip_guard_never_fires.
  destruct (processAction _ _ _ _) as [[[]|e] g1] eqn:Hpa; [|discriminate].
  pose proof (processAction_seats _ _ _ _ _ Hat Hpa) as Hs.
  destruct (if isRaise _ then _ else _) as [toAct|e]; [|discriminate].
  destruct (_ <=? _)%nat; intros [=]; subst; exact Hs.
Qed.

Lemma reachable_seats g r : reachable getAction g r -> sameSeats g (game r).
Proof.
  induction 1 as [|r r' _ IH _ Hit]; [apply sameSeats_refl|].
  eapply sameSeats_trans; [exact IH|].
  apply (iteration_seats (getActivePlayers (players g))).
  rewrite Hit. reflexivity.
Qed.

End Loop.

Lemma findById_seat ps q :
  NoDup (map id ps) -> q ∈ ps -> findById (id q) ps = Some q.
Proof.
  unfold findById. induction ps as [|y ps IH]; intros Hnd Hq.
  - inversion Hq.
  - simpl in Hnd. apply NoDup_cons in Hnd as [Hy Hnd]. simpl.
    destruct (bool_decide (id y = id q)) eqn:E.
    + apply bool_decide_eq_true in E.
      apply elem_of_cons in Hq as [->|Hq]; [reflexivity|].
      exfalso. apply Hy. rewrite E. apply list_elem_of_fmap. eauto.
    + apply bool_decide_eq_false in E.
      apply elem_of_cons in Hq as [->|Hq]; [congruence|]. auto.
Qed.

Lemma reopen_adds active g player : forall toAct toAct',
  reopen active g player toAct = Returned toAct' ->
  toAct ⊆ toAct'
  /\ forall p pl, p ∈ active -> id p ≠ id player ->
       findById (id p) (players g) = Some pl ->
       hasFolded pl = false -> isInAllIn pl = false -> id p ∈ toAct'.
Proof.
  induction active as [|a active IH]; intros toAct toAct'; simpl.
  - intros [=]; subst. split; [reflexivity|]. intros p pl Hp. inversion Hp.
  - destruct (bool_decide (id a = id player)) eqn:E.
    + apply bool_decide_eq_true in E. intros H.
      destruct (IH _ _ H) as [Hsub Hall]. split; [exact Hsub|].
      intros p pl Hp Hne. apply elem_of_cons in Hp as [->|Hp]; [congruence|].
      eauto.
    + destruct (findById (id a) (players g)) as [pl0|] eqn:Hf; [|discriminate].
      destruct (negb (hasFolded pl0) && negb (isInAllIn pl0)) eqn:Hc;
        intros H; destruct (IH _ _ H) as [Hsub Hall].
      * split; [set_solver|].
        intros p pl Hp Hne Hfind Hnf Hna.
        apply elem_of_cons in Hp as [->|Hp]; [set_solver|eauto].
      * split; [exact Hsub|].
        intros p pl Hp Hne Hfind Hnf Hna.
        apply elem_of_cons in Hp as [->|Hp]; [|eauto].
        rewrite Hfind in Hf. injection Hf as <-.
        rewrite Hnf, Hna in Hc. discriminate.
Qed.

(** C1. In every round that the loop of a betting phase can reach, once
    the action of the player in turn has been processed: after a raise the
    table bet is the target of the raise and every other player who is
    neither folded nor all-in is in the pending set; after any other
    action the pending set is a subset of what it was. *)
Theorem raise_reopens_action getAction g r r' player :
  NoDup (map id (players g)) ->
  reachable getAction g r ->
  at_ (players (game r)) (currentIdx r) = Some player ->
  processed (iteration getAction (getActivePlayers (players g)) r) = Some r' ->
  match getAction (length (asked r)) (game r) player with
  | ARaise target =>
      currentBet_ (game r') = target
      /\ forall q, q ∈ players (game r') -> id q ≠ id player ->
           hasFolded q = false -> isInAllIn q = false ->
           id q ∈ playersToAct r'
  | _ => playersToAct r' ⊆ playersToAct r
  end.
Proof.
  intros Hnd Hreach Hat Hit.
  pose proof (reachable_seats _ _ _ Hreach) as Hs0.
  pose proof (iteration_seats _ _ _ _ Hit) as Hs1.
  pose proof (sameSeats_trans _ _ _ Hs0 Hs1) as Hs.
  revert Hit. unfold iteration. rewrite Hat, skip_guard_never_fires.
  set (action := getAction _ _ _).
  destruct (processAction _ _ _ _) as [[[]|e] g1] eqn:Hpa; [|discriminate].
  destruct action as [| |a|target] eqn:Hact; simpl isRaise; cbv iota.
  1-3: destruct (_ <=? _)%nat; intros [=]; subst; simpl; set_solver.
  destruct (reopen _ _ _ _) as [toAct|e] eqn:Hre; [|discriminate].
  intros Hit.
  assert (Hr' : game r' = g1 /\ playersToAct r' = toAct).
  { destruct (_ <=? _)%nat; injection Hit as <-; auto. }
  destruct Hr' as [Hg Hp]. rewrite Hg, Hp. rewrite Hg in Hs. clear Hit.
  split; [exact (processAction_raise_bet _ _ _ _ _ Hpa)|].
  intros q Hq Hne Hnf Hna.
  apply list_elem_of_lookup in Hq as [i Hq].
  destruct Hs as [Hlen Hseat].
  destruct (lookup_lt_is_Some_2 (players g) i) as [p0 Hp0].
  { rewrite Hlen. eapply lookup_lt_Some; eauto. }
  destruct (Hseat i p0 q Hp0 Hq) as [Hid Hfold].
  assert (Hactive : p0 ∈ getActivePlayers (players g)).
  { unfold getActivePlayers. apply list_elem_of_filter. split.
    - destruct (hasFolded p0); [rewrite Hfold in Hnf by reflexivity|]; congruence.
    - eapply list_elem_of_lookup_2; eauto. }
  assert (Hnd1 : NoDup (map id (players g1))).
  { rewrite <- (sameSeats_ids g g1); [exact Hnd|]. split; assumption. }
  destruct (reopen_adds _ _ _ _ _ Hre) as [_ Hall].
  rewrite <- Hid.
  apply (Hall p0 q Hactive); [congruence| |exact Hnf|exact Hna].
  rewrite Hid. apply findById_seat; [exact Hnd1|].
  eapply list_elem_of_lookup_2; eauto.
Qed.

Lemma raise_reopens_action_witness :
  exists r',
    processed (iteration foldThenRaises (getActivePlayers (players preFlop3))
                 roundAfterFold) = Some r'
    /\ currentBet_ (game r') = 40
    /\ "b" ∈ playersToAct r'.
Proof.
  eexists. split; [vm_compute; reflexivity|].
  match goal with |- context [game ?r] => set (r' := r) end.
  assert (Hnd : NoDup (map id (players preFlop3)))
    by (apply (bool_decide_unpack _); vm_compute; exact I).
  assert (Hreach : reachable foldThenRaises preFlop3 roundAfterFold).
  { eapply reach_step; [apply reach_start| |].
    - vm_compute. discriminate.
    - vm_compute. reflexivity. }
  pose proof (raise_reopens_action foldThenRaises preFlop3 roundAfterFold r'
                (afterBet (giveCard (HArray [createCard R5 Spades])
                   (giveCard (HArray [createCard R2 Spades])
                      (createPlayer "a" "Alice" 1000))) 10)
                Hnd Hreach) as H.
  destruct H as [Hbet Hall]; [vm_compute; reflexivity | vm_compute; reflexivity |].
  split; [exact Hbet|].
  apply (Hall (afterBet (giveCard (HArray [createCard R6 Spades])
                   (giveCard (HArray [createCard R3 Spades])
                      (createPlayer "b" "Bob" 1000))) 20)).
  - vm_compute. apply list_elem_of_In. right. left. reflexivity.
  - discriminate.
  - reflexivity.
  - reflexivity.
Defined.

(** C2. Charlie folds, Alice and Bob raise, and the loop comes round to
    Charlie's seat: the skip test reads [player.folded] and
    [player.allIn], which no player object has, so the folded Charlie is
    handed to the collaborator as the fourth request of the phase. *)
Theorem folded_player_is_asked :
  exists r p,
    bettingRound foldThenRaises 10 preFlop3 = Some (Returned tt, r)
    /\ asked r !! 3%nat = Some p
    /\ id p = "c" /\ hasFolded p = true.
Proof.
  eexists _, _. split; [vm_compute; reflexivity|].
  repeat split.
Qed.

(** ** Hand ranks *)

Lemma insertBy_perm {A} (cmp : A -> A -> Z) x l : insertBy cmp x l ≡ₚ x :: l.
Proof.
  induction l as [|y l IH]; simpl; [reflexivity|].
  destruct (cmp x y <=? 0); [reflexivity|].
  rewrite IH. apply Permutation_swap.
Qed.

Lemma sortBy_perm {A} (cmp : A -> A -> Z) l : sortBy cmp l ≡ₚ l.
Proof.
  induction l as [|x l IH]; simpl; [reflexivity|].
  rewrite insertBy_perm. by f_equiv.
Qed.

Lemma sortBy_length {A} (cmp : A -> A -> Z) l : length (sortBy cmp l) = length l.
Proof. apply Permutation_length, sortBy_perm. Qed.

Lemma insertBy_value_sorted x l :
  Sorted Z.le (value <$> l) ->
  Sorted Z.le (value <$> insertBy compareCardsRank x l).
Proof.
  unfold compareCardsRank.
  induction l as [|y l IH]; simpl; intros Hs.
  - repeat constructor.
  - destruct (value x - value y <=? 0) eqn:E.
    + simpl. constructor; [exact Hs|]. constructor. lia.
    + apply Sorted_inv in Hs as [Hs Hhd]. simpl.
      constructor; [auto|].
      destruct l as [|z l]; simpl.
      * constructor. lia.
      * destruct (value x - value z <=? 0); simpl; constructor.
        -- lia.
        -- by apply HdRel_inv in Hhd.
Qed.

Lemma sortBy_value_sorted l :
  Sorted Z.le (value <$> sortBy compareCardsRank l).
Proof.
  induction l as [|x l IH]; simpl; [constructor|].
  by apply insertBy_value_sorted.
Qed.

(** The values of the array after [cards.sort(compareCardsRank)] are the
    values of the hand in ascending order. *)
Lemma sorted_values cards vs :
  Sorted Z.le vs -> vs ≡ₚ value <$> cards ->
  value <$> sortBy compareCardsRank cards = vs.
Proof.
  intros Hs Hp. apply (Sorted_unique Z.le).
  - apply sortBy_value_sorted.
  - exact Hs.
  - rewrite Hp. by rewrite sortBy_perm.
Qed.

Lemma bump_last k m :
  Forall (fun kv => kv.1 < k) m -> bump k m = m ++ [(k, 1)].
Proof.
  induction m as [|[k' n] m IH]; simpl; [reflexivity|].
  intros Hall. apply Forall_cons in Hall as [Hk Hall]. simpl in Hk.
  destruct (k =? k') eqn:E1; [lia|].
  destruct (k <? k') eqn:E2; [lia|].
  by rewrite IH.
Qed.

(** Five cards of increasing values: every value is counted once. *)
Lemma countByRank_increasing c0 c1 c2 c3 c4 :
  value c0 < value c1 -> value c1 < value c2 ->
  value c2 < value c3 -> value c3 < value c4 ->
  map snd (countByRank [c0; c1; c2; c3; c4]) = [1; 1; 1; 1; 1].
Proof.
  intros H1 H2 H3 H4. unfold countByRank. cbn [foldl].
  rewrite (bump_last (value c0)) by constructor. cbn [app].
  rewrite (bump_last (value c1)) by (repeat constructor; simpl; lia).
  cbn [app].
  rewrite (bump_last (value c2)) by (repeat constructor; simpl; lia).
  cbn [app].
  rewrite (bump_last (value c3)) by (repeat constructor; simpl; lia).
  cbn [app].
  rewrite (bump_last (value c4)) by (repeat constructor; simpl; lia).
  reflexivity.
Qed.

Lemma stepsOfOne_five v0 v1 v2 v3 v4 :
  stepsOfOne [v0; v1; v2; v3; v4]
  <-> v1 - v0 = 1 /\ v2 - v1 = 1 /\ v3 - v2 = 1 /\ v4 - v3 = 1.
Proof.
  unfold stepsOfOne. split.
  - intros H. repeat split.
    + apply (H 0%nat); reflexivity.
    + apply (H 1%nat); reflexivity.
    + apply (H 2%nat); reflexivity.
    + apply (H 3%nat); reflexivity.
  - intros (H1 & H2 & H3 & H4) i a b Ha Hb.
    destruct i as [|[|[|[|[|i]]]]]; simpl in Ha, Hb;
      try discriminate; injection Ha as <-; injection Hb as <-; assumption.
Qed.

(** The straight test on an array of five cards, from the array as
    the sort leaves it. *)
Lemma isStraight_five cards c0 c1 c2 c3 c4 :
  let s := [c0; c1; c2; c3; c4] in
  sortBy compareCardsRank cards = s ->
  exists b, isStraight cards = (Returned b, s)
    /\ (b = true <-> straightValues (value <$> s)).
Proof.
  intros s Hsorted. unfold isStraight. rewrite Hsorted.
  unfold s, straightValues. cbn [fmap list_fmap].
  pose proof (stepsOfOne_five (value c0) (value c1) (value c2) (value c3)
                (value c4)) as Hsteps.
  simpl.
  destruct (value c0 =? 2) eqn:E0; [destruct (value c1 =? 3) eqn:E1;
    [destruct (value c2 =? 4) eqn:E2; [destruct (value c3 =? 5) eqn:E3;
      [destruct (value c4 =? 14) eqn:E4|]|]|]|].
  1: { eexists. split; [reflexivity|]. split; [|reflexivity].
       intros _. right. repeat f_equal; lia. }
  all: eexists; (split; [reflexivity|]);
    rewrite Hsteps, !andb_true_iff, !Z.eqb_eq;
    (split; [intros (?&?&?&?&_); left; auto
            |intros [(?&?&?&?)|[=]]; [auto|lia]]).
Qed.

Lemma isFlush_oneSuit cards : isFlush cards = true <-> oneSuit cards.
Proof.
  unfold isFlush, oneSuit. destruct cards as [|c cards]; simpl.
  - split; [|reflexivity]. intros _. exists Spades. constructor.
  - revert c. induction cards as [|d cards IH]; intros c; simpl.
    + split; [|reflexivity]. intros _. exists (suit c). repeat constructor.
    + rewrite andb_true_iff, bool_decide_eq_true, IH. split.
      * intros [Hcd [s Hs]]. exists s. constructor; [|exact Hs].
        apply Forall_cons in Hs as [Hd _]. congruence.
      * intros [s Hs]. apply Forall_cons in Hs as [Hc Hs]. split.
        -- apply Forall_cons in Hs as [Hd _]. congruence.
        -- by exists s.
Qed.

Lemma oneSuit_perm l1 l2 : l1 ≡ₚ l2 -> oneSuit l1 -> oneSuit l2.
Proof. intros Hp [s Hs]. exists s. by rewrite <- Hp. Qed.

(** The rank of five cards, from the array as the sort leaves it. *)
Lemma getRank_five cards c0 c1 c2 c3 c4 :
  let s := [c0; c1; c2; c3; c4] in
  sortBy compareCardsRank cards = s ->
  exists r, getRank cards = (Returned r, s)
    /\ (r = STRAIGHT \/ r = STRAIGHT_FLUSH \/ r = ROYAL_FLUSH
        <-> straightValues (value <$> s))
    /\ (r = STRAIGHT <-> straightValues (value <$> s) /\ isFlush s = false).
Proof.
  intros s Hsorted.
  destruct (isStraight_five cards c0 c1 c2 c3 c4 Hsorted) as (b & Hb & Hshape).
  fold s in Hb, Hshape. unfold getRank. rewrite Hb.
  unfold HIGH_CARD, PAIR, TWO_PAIR, THREE_OF_KIND, STRAIGHT, FLUSH,
    FULL_HOUSE, FOUR_OF_KIND, STRAIGHT_FLUSH, ROYAL_FLUSH.
  destruct b.
  - assert (Hst : straightValues (value <$> s)) by (by apply Hshape).
    assert (Hinc : value c0 < value c1 /\ value c1 < value c2
                   /\ value c2 < value c3 /\ value c3 < value c4).
    { destruct Hst as [Hst|Hst].
      - apply stepsOfOne_five in Hst. lia.
      - unfold s in Hst. simpl in Hst. injection Hst as -> -> -> -> ->. lia. }
    destruct Hinc as (I1 & I2 & I3 & I4).
    assert (Hk4 : isOfKind 4 (countByRank s) = false).
    { unfold isOfKind. unfold s. by rewrite countByRank_increasing. }
    assert (Hfh : isFullHouse s (countByRank s) = false).
    { unfold isFullHouse. unfold s. by rewrite countByRank_increasing. }
    rewrite Hk4, Hfh.
    destruct (isFlush s) eqn:Hfl; simpl.
    + unfold isFlushRoyal, s. simpl.
      destruct (value c0 =? 10); [destruct (value c4 =? 14)|];
        (eexists; split; [reflexivity|]; split;
         [split; auto|split; [discriminate|intros [_ [=]]]]).
    + eexists; split; [reflexivity|]. split; split; auto.
  - assert (Hst : ~ straightValues (value <$> s)).
    { intros H. apply Hshape in H. discriminate. }
    simpl.
    eexists; split; [reflexivity|].
    repeat match goal with
           | |- context [if ?c then _ else _] => destruct c
           end;
      (split; split; [intros [[=]|[[=]|[=]]] | tauto | intros [=] | tauto]).
Qed.

(** C7. For five cards made by [createCard], with [vs] their values in
    ascending order: [getRank] returns a rank; its straight test holds
    exactly when [vs] climbs by steps of one or is 2, 3, 4, 5, 14; the rank
    is one of the straights (plain, flush or royal) in exactly that case,
    and the plain straight when moreover the five cards are not of one
    suit. On the wheel fixture the rank is [STRAIGHT]. *)
Theorem getRank_straight cards vs :
  length cards = 5%nat -> Forall validCard cards ->
  Sorted Z.le vs -> vs ≡ₚ value <$> cards ->
  (exists r sorted, getRank cards = (Returned r, sorted)
     /\ ((isStraight cards).1 = Returned true <-> straightValues vs)
     /\ (r = STRAIGHT \/ r = STRAIGHT_FLUSH \/ r = ROYAL_FLUSH
         <-> straightValues vs)
     /\ (r = STRAIGHT <-> straightValues vs /\ ~ oneSuit cards))
  /\ (getRank wheel).1 = Returned STRAIGHT.
Proof.
  intros Hlen _ Hs Hp. split; [|reflexivity].
  pose proof (sorted_values cards vs Hs Hp) as Hvs.
  pose proof (sortBy_perm compareCardsRank cards) as Hperm.
  pose proof (sortBy_length compareCardsRank cards) as Hl.
  rewrite Hlen in Hl.
  destruct (sortBy compareCardsRank cards)
    as [|c0 [|c1 [|c2 [|c3 [|c4 [|c5 s]]]]]] eqn:Hsort; try discriminate.
  destruct (getRank_five cards c0 c1 c2 c3 c4 Hsort) as (r & Hr & Hany & Hplain).
  destruct (isStraight_five cards c0 c1 c2 c3 c4 Hsort) as (b & Hb & Hshape).
  cbv zeta in *. rewrite Hvs in Hany, Hplain, Hshape.
  exists r, [c0; c1; c2; c3; c4]. split; [exact Hr|].
  split; [|split; [exact Hany|]].
  - rewrite Hb. simpl. rewrite <- Hshape. split; [intros [=]|intros ->]; auto.
  - rewrite Hplain. f_equiv.
    rewrite <- not_true_iff_false, isFlush_oneSuit.
    split; intros Hn Ho; apply Hn.
    + exact (oneSuit_perm _ _ (Permutation_sym Hperm) Ho).
    + exact (oneSuit_perm _ _ Hperm Ho).
Qed.

Lemma getRank_straight_witness :
  exists r sorted, getRank wheel = (Returned r, sorted)
    /\ (r = STRAIGHT <-> straightValues [2; 3; 4; 5; 14] /\ ~ oneSuit wheel).
Proof.
  destruct (getRank_straight wheel [2; 3; 4; 5; 14]) as [H _].
  - reflexivity.
  - repeat constructor.
  - repeat constructor; lia.
  - apply (bool_decide_unpack _). vm_compute. exact I.
  - destruct H as (r & sorted & Hr & _ & _ & Hplain). eauto.
Defined.


(** ** Showdown *)

(** C6. Alice holds a royal flush, Bob and Charlie a pair each. The
    largest key of the rank count is taken by comparing the keys as
    strings, where "2" is greater than "10"; the tie-break then runs
    among the two pairs and [compareHands] returns one of them. *)
Theorem compareHands_passes_over_royal_flush :
  let seats := [(alice, 1%nat); (bob, 2%nat); (charlie, 3%nat)] in
  exists hands h w h',
    evaluations 0%nat seats royalBoard = (Returned hands, h)
    /\ map evaluationRank hands = [ROYAL_FLUSH; PAIR; PAIR]
    /\ compareHands hands h = (Returned (Some w), h')
    /\ id (player w) = "b" /\ evaluationRank w = PAIR.
Proof.
  eexists _, _, _, _. split; [vm_compute; reflexivity|].
  split; [reflexivity|]. split; [vm_compute; reflexivity|].
  split; reflexivity.
Qed.

(** The tie-break of [compareHands] calls [compareWithSameRank] without
    the rank, so pairs are compared card by card from the highest: the
    pair of deuces with an ace beats the pair of kings. *)
Lemma compareHands_kicker_beats_pair :
  let seats := [(alice, 1%nat); (bob, 2%nat)] in
  exists kings deuces h w h',
    evaluations 0%nat seats kingsBoard = (Returned [kings; deuces], h)
    /\ evaluationRank kings = PAIR /\ evaluationRank deuces = PAIR
    /\ valuesOf h (bestHand kings) = [13; 13; 9; 8; 5]
    /\ valuesOf h (bestHand deuces) = [14; 9; 8; 2; 2]
    /\ compareHands [kings; deuces] h = (Returned (Some w), h')
    /\ w = deuces.
Proof.
  eexists _, _, _, _, _. split; [vm_compute; reflexivity|].
  repeat (split; [reflexivity|]).
  split; [vm_compute; reflexivity|]. reflexivity.
Qed.

(** With three hands at the top rank the second tie-break step reads
    [bestHand] off an array and [compareHands] throws. *)
Lemma compareHands_three_way_tie_throws :
  let seats := [(alice, 1%nat); (bob, 2%nat); (charlie, 3%nat)] in
  exists hands h msg,
    evaluations 0%nat seats highCardBoard = (Returned hands, h)
    /\ map evaluationRank hands = [HIGH_CARD; HIGH_CARD; HIGH_CARD]
    /\ (compareHands hands h).1 = Thrown (TypeError msg).
Proof.
  eexists _, _, _. split; [vm_compute; reflexivity|].
  split; [reflexivity|]. vm_compute. reflexivity.
Qed.

(** ** The hand evaluator writes to its own arrays only *)

Section Spares.

Variable n : nat.

Lemma spares_ret {A} (x : A) (Q : A -> Prop) : Q x -> spares n (ret x) Q.
Proof.
  intros HQ h Hn. simpl. split; [lia|]. split; [auto|].
  intros y [= <-]. exact HQ.
Qed.

Lemma spares_throw {A} e (Q : A -> Prop) : spares n (throw e) Q.
Proof. intros h Hn. simpl. split; [lia|]. split; [auto|]. discriminate. Qed.

Lemma spares_lift {A} (o : Outcome A) : spares n (lift o) (fun _ => True).
Proof. intros h Hn. simpl. split; [lia|]. split; [reflexivity|auto]. Qed.

Lemma spares_bind {A B} (m : M A) (f : A -> M B) Q R :
  spares n m Q -> (forall x, Q x -> spares n (f x) R) ->
  spares n (bind m f) R.
Proof.
  intros Hm Hf h Hn. unfold bind.
  destruct (Hm h Hn) as (Hlen & Hkeep & HQ).
  destruct (m h) as [[x|e] h1]; simpl in *.
  - destruct (Hf x (HQ x eq_refl) h1 ltac:(lia)) as (Hlen' & Hkeep' & HR).
    split; [lia|]. split; [|exact HR].
    intros a Ha. rewrite Hkeep' by exact Ha. auto.
  - split; [exact Hlen|]. split; [exact Hkeep|]. discriminate.
Qed.

Lemma spares_weaken {A} (m : M A) (Q R : A -> Prop) :
  spares n m Q -> (forall x, Q x -> R x) -> spares n m R.
Proof.
  intros Hm HQR h Hn. destruct (Hm h Hn) as (Hlen & Hkeep & HQ).
  split; [exact Hlen|]. split; [exact Hkeep|]. auto.
Qed.

(** A new array lies above every array that exists. *)
Lemma spares_alloc cs : spares n (alloc cs) (fun a => (n <= a)%nat).
Proof.
  intros h Hn. simpl. rewrite length_app. simpl. split; [lia|]. split.
  - intros a Ha. apply lookup_app_l. lia.
  - intros x [= <-]. exact Hn.
Qed.

Lemma spares_readArr a : spares n (readArr a) (fun _ => True).
Proof.
  intros h Hn. unfold readArr.
  destruct (h !! a); simpl; (split; [reflexivity|]);
    (split; [reflexivity|auto]).
Qed.

Lemma spares_writeArr a cs :
  (n <= a)%nat -> spares n (writeArr a cs) (fun _ => True).
Proof.
  intros Ha h Hn. simpl. rewrite length_insert. split; [lia|].
  split; [|auto]. intros b Hb. apply list_lookup_insert_ne. lia.
Qed.

Lemma spares_foldM {A B} (f : B -> A -> M B) (P : A -> Prop)
    (I : B -> Prop) l :
  (forall acc x, I acc -> P x -> spares n (f acc x) I) ->
  Forall P l -> forall acc, I acc -> spares n (foldM f l acc) I.
Proof.
  intros Hf. induction 1 as [|x l Hx _ IH]; intros acc Hacc; simpl.
  - by apply spares_ret.
  - eapply spares_bind; [by apply Hf|]. exact IH.
Qed.

Lemma spares_getRankAt curr :
  (n <= curr)%nat -> spares n (getRankAt curr) (fun _ => True).
Proof.
  intros Hc. unfold getRankAt.
  eapply spares_bind; [apply spares_readArr|]. intros cards _.
  destruct (getRank cards) as [o cards'].
  eapply spares_bind; [by apply spares_writeArr|]. intros _ _.
  apply spares_lift.
Qed.

(** The comparison sorts its two arrays and returns one of them. *)
Lemma spares_compareWithSameRank newRank best rank :
  (n <= newRank)%nat -> (n <= best)%nat ->
  spares n (compareWithSameRank newRank (Some best) rank)
    (fun a => (n <= a)%nat).
Proof.
  intros Hnew Hbest. unfold compareWithSameRank.
  assert (Hpick : forall s,
    (n <= match s with NewSide => newRank | BestSide => best end)%nat)
    by (intros []; assumption).
  eapply spares_bind; [apply spares_readArr|]. intros newCards _.
  eapply (spares_bind _ _
            (fun early => forall a, early = Some a -> (n <= a)%nat)).
  - destruct rank as [r|]; [|apply spares_ret; discriminate].
    destruct (_ || _); [|apply spares_ret; discriminate].
    eapply spares_bind; [apply spares_readArr|]. intros bestCards _.
    apply spares_ret. intros a.
    destruct (rankComparison _ _ _) as [s|]; simpl; [|discriminate].
    intros [= <-]. apply Hpick.
  - intros [a|] Hearly; [apply spares_ret; auto|].
    eapply spares_bind; [by apply spares_writeArr|]. intros _ _.
    eapply spares_bind; [apply spares_readArr|]. intros bestCards _.
    eapply spares_bind; [by apply spares_writeArr|]. intros _ _.
    eapply spares_bind; [apply spares_readArr|]. intros newSorted _.
    eapply spares_bind; [apply spares_readArr|]. intros bestSorted _.
    eapply spares_bind; [apply spares_lift|]. intros s _.
    apply spares_ret. apply Hpick.
Qed.

Lemma allAbove_snoc l a :
  allAbove n l -> (n <= a)%nat -> allAbove n (l ++ [a]).
Proof. intros Hl Ha. apply Forall_app. split; [exact Hl|]. by constructor. Qed.

(** Every combination is the array given or a new array. *)
Lemma spares_getAllCombinations k : forall cards,
  (n <= cards)%nat -> spares n (getAllCombinations cards k) (allAbove n).
Proof.
  assert (Hones : forall cs : list Card,
    spares n (foldM (fun result card =>
                       let* one := alloc [card] in ret (result ++ [one]))
                cs []) (allAbove n)).
  { intros cs.
    apply (spares_foldM _ (fun _ => True)); [|by apply Forall_true|constructor].
    intros acc card Hacc _.
    eapply spares_bind; [apply spares_alloc|]. intros one Hone.
    apply spares_ret. by apply allAbove_snoc. }
  induction k as [|k IH]; intros cards Hc; cbn [getAllCombinations];
    (eapply spares_bind; [apply spares_readArr|]); intros cs _;
    (destruct (_ || _); [apply spares_ret; constructor|]);
    (destruct (_ =? length cs)%nat;
      [apply spares_ret; by repeat constructor|]);
    (destruct (_ =? 1)%nat; [apply Hones|]).
  - apply spares_ret. constructor.
  - apply (spares_foldM _ (fun _ => True)); [|by apply Forall_true|constructor].
    intros result i Hres _. unfold combinationsFrom.
    eapply spares_bind; [apply spares_alloc|]. intros head Hhead.
    eapply spares_bind; [apply spares_alloc|]. intros rest Hrest.
    eapply spares_bind; [by apply IH|]. intros tail Htail.
    apply (spares_foldM _ (fun _ => True)); [|by apply Forall_true|exact Hres].
    intros acc tailj Hacc _.
    eapply spares_bind; [apply spares_readArr|]. intros hd _.
    eapply spares_bind; [apply spares_readArr|]. intros tl _.
    eapply spares_bind; [apply spares_alloc|]. intros combination Hcomb.
    apply spares_ret. by apply allAbove_snoc.
Qed.

Lemma spares_bestRank playerCards tableCards :
  spares n (bestRank playerCards tableCards)
    (fun best => (n <= bestCards best)%nat).
Proof.
  unfold bestRank.
  eapply spares_bind; [apply spares_readArr|]. intros pc _.
  eapply spares_bind; [apply spares_readArr|]. intros tc _.
  eapply spares_bind; [apply spares_alloc|]. intros allCards Hall.
  eapply spares_bind; [by apply spares_getAllCombinations|].
  intros allCombinations Hcombs.
  eapply spares_bind; [apply spares_alloc|]. intros empty Hempty.
  apply (spares_foldM _ (fun a => (n <= a)%nat)); [|exact Hcombs|exact Hempty].
  intros acc curr Hacc Hcurr.
  eapply spares_bind; [by apply spares_getRankAt|]. intros newRank _.
  destruct (bestRankOf acc <? newRank); [by apply spares_ret|].
  destruct (bestRankOf acc =? newRank); [|by apply spares_ret].
  eapply spares_bind; [by apply spares_compareWithSameRank|].
  intros winner Hw. by apply spares_ret.
Qed.

End Spares.

(** ** The hand evaluator returns on five to seven cards *)

Lemma runs_ret {A} (x : A) h : runs (ret x) h x h.
Proof. reflexivity. Qed.

Lemma runs_bind {A B} (m : M A) (f : A -> M B) h x h1 y h2 :
  runs m h x h1 -> runs (f x) h1 y h2 -> runs (bind m f) h y h2.
Proof. unfold runs, bind. intros -> H. exact H. Qed.

Lemma runs_alloc cs h : runs (alloc cs) h (length h) (h ++ [cs]).
Proof. reflexivity. Qed.

Lemma runs_readArr a cs h : h !! a = Some cs -> runs (readArr a) h cs h.
Proof. unfold runs, readArr. intros ->. reflexivity. Qed.

Lemma runs_writeArr a cs h : runs (writeArr a cs) h tt (<[a := cs]> h).
Proof. reflexivity. Qed.

Lemma runs_lift {A} (x : A) h : runs (lift (Returned x)) h x h.
Proof. reflexivity. Qed.

Lemma sameLens_refl h : sameLens h h.
Proof. intros a k H. exact H. Qed.

Lemma sameLens_trans h1 h2 h3 :
  sameLens h1 h2 -> sameLens h2 h3 -> sameLens h1 h3.
Proof. intros H12 H23 a k H. auto. Qed.

Lemma sameLens_app h e : sameLens h (h ++ e).
Proof.
  intros a k (cs & Hcs & Hk). exists cs. split; [|exact Hk].
  by apply lookup_app_l_Some.
Qed.

(** Overwriting an array with as many elements. *)
Lemma sameLens_insert h b cs :
  hasLen h b (length cs) -> sameLens h (<[b := cs]> h).
Proof.
  intros (old & Hold & Hk) a k (cs' & Hcs' & Hk').
  destruct (decide (a = b)) as [->|Hne].
  - exists cs. split.
    + apply list_lookup_insert_eq. eapply lookup_lt_Some; eauto.
    + congruence.
  - exists cs'. split; [|exact Hk']. by rewrite list_lookup_insert_ne.
Qed.

Lemma runs_foldM {A B} (f : B -> A -> M B)
    (Inv : list (list Card) -> B -> Prop) (P : list (list Card) -> A -> Prop) :
  (forall h acc x, Inv h acc -> P h x ->
     exists acc' h', runs (f acc x) h acc' h' /\ Inv h' acc'
                     /\ (forall y, P h y -> P h' y)) ->
  forall l h acc, Inv h acc -> Forall (P h) l ->
    exists acc' h', runs (foldM f l acc) h acc' h' /\ Inv h' acc'
                    /\ (forall y, P h y -> P h' y).
Proof.
  intros Hf. induction l as [|x l IH]; intros h acc Hinv Hall.
  - exists acc, h. split; [apply runs_ret|]. auto.
  - apply Forall_cons in Hall as [Hx Hall].
    destruct (Hf h acc x Hinv Hx) as (acc1 & h1 & Hrun1 & Hinv1 & Hst1).
    destruct (IH h1 acc1 Hinv1) as (acc2 & h2 & Hrun2 & Hinv2 & Hst2).
    { eapply Forall_impl; [exact Hall|]. exact Hst1. }
    exists acc2, h2. split; [|auto].
    simpl. eapply runs_bind; eauto.
Qed.

Lemma valuesAre_returns cards expected :
  Forall (fun jv => (jv.1 < length cards)%nat) expected ->
  exists b, valuesAre cards expected = Returned b.
Proof.
  induction 1 as [|[j v] expected Hj _ IH]; simpl; [eauto|].
  destruct (lookup_lt_is_Some_2 cards j Hj) as [c ->].
  destruct (value c =? v); eauto.
Qed.

(** On five cards [getRank] returns one of the ranks, all of them at
    least [HIGH_CARD], and leaves the array sorted. *)
Lemma getRank_returns cards :
  length cards = 5%nat ->
  exists r, getRank cards = (Returned r, sortBy compareCardsRank cards)
    /\ HIGH_CARD <= r <= ROYAL_FLUSH.
Proof.
  intros Hlen. unfold getRank, isStraight, isFlushRoyal.
  pose proof (sortBy_length compareCardsRank cards) as Hl.
  rewrite Hlen in Hl. set (s := sortBy compareCardsRank cards) in *.
  destruct (valuesAre_returns s
              [(0%nat, 2); (1%nat, 3); (2%nat, 4); (3%nat, 5); (4%nat, 14)])
    as [w ->]; [repeat constructor; simpl; lia|].
  destruct (valuesAre_returns s [(0%nat, 10); (4%nat, 14)]) as [royal Hroyal];
    [repeat constructor; simpl; lia|].
  unfold HIGH_CARD, PAIR, TWO_PAIR, THREE_OF_KIND, STRAIGHT, FLUSH,
    FULL_HOUSE, FOUR_OF_KIND, STRAIGHT_FLUSH, ROYAL_FLUSH.
  destruct (_ && isFlush s) eqn:Hsf.
  - rewrite Hroyal. destruct royal; eexists; (split; [reflexivity|simpl; lia]).
  - eexists. split; [reflexivity|]. simpl.
    repeat match goal with
           | |- context [if ?c then _ else _] => destruct c
           end; lia.
Qed.

Lemma getRankAt_returns curr h :
  hasLen h curr 5 ->
  exists r h', runs (getRankAt curr) h r h' /\ sameLens h h'
    /\ HIGH_CARD <= r.
Proof.
  intros (cs & Hcs & Hlen).
  destruct (getRank_returns cs Hlen) as (r & Hr & Hge & _).
  exists r, (<[curr := sortBy compareCardsRank cs]> h). split.
  - unfold getRankAt. eapply runs_bind; [by apply runs_readArr|].
    rewrite Hr. eapply runs_bind; [apply runs_writeArr|]. apply runs_lift.
  - split; [|exact Hge]. apply sameLens_insert.
    exists cs. split; [exact Hcs|]. by rewrite sortBy_length.
Qed.

Lemma firstDifference_returns newRank : forall bestRank,
  (length newRank <= length bestRank)%nat ->
  exists s, firstDifference newRank bestRank = Returned s.
Proof.
  induction newRank as [|x newRank IH]; intros [|y bestRank] Hlen;
    simpl in *; eauto; [lia|].
  destruct (_ >? 0); [eauto|]. destruct (_ <? 0); [eauto|].
  apply IH. lia.
Qed.

Lemma compareWithSameRank_returns newRank best rank h k :
  hasLen h newRank k -> hasLen h best k ->
  exists w h', runs (compareWithSameRank newRank (Some best) rank) h w h'
    /\ (w = newRank \/ w = best) /\ sameLens h h'.
Proof.
  intros Hnew Hbest.
  assert (Hpick : forall s,
    match s with NewSide => newRank | BestSide => best end = newRank
    \/ match s with NewSide => newRank | BestSide => best end = best)
    by (intros []; auto).
  destruct Hnew as (c1 & Hc1 & Hk1). destruct (Hbest) as (c2 & Hc2 & Hk2).
  unfold compareWithSameRank.
  set (early0 := match rank with
                 | Some r =>
                     if bool_decide (r = PAIR) || bool_decide (r = TWO_PAIR)
                        || bool_decide (r = THREE_OF_KIND)
                        || bool_decide (r = FOUR_OF_KIND)
                     then option_map
                            (fun s => match s with
                                      | NewSide => newRank
                                      | BestSide => best
                                      end)
                            (rankComparison rank c1 c2)
                     else None
                 | None => None
                 end).
  assert (Hearly : runs
    (match rank with
     | Some r =>
         if bool_decide (r = PAIR) || bool_decide (r = TWO_PAIR)
            || bool_decide (r = THREE_OF_KIND) || bool_decide (r = FOUR_OF_KIND)
         then
           let* bestCards := readArr best in
           ret (option_map
                  (fun s => match s with
                            | NewSide => newRank
                            | BestSide => best
                            end)
                  (rankComparison rank c1 bestCards))
         else ret None
     | None => ret None
     end) h early0 h).
  { unfold early0. destruct rank as [r|]; [|apply runs_ret].
    destruct (_ || _); [|apply runs_ret].
    eapply runs_bind; [by apply runs_readArr|]. apply runs_ret. }
  destruct early0 as [a|] eqn:Ha.
  - exists a, h. split; [|split; [|apply sameLens_refl]].
    + eapply runs_bind; [by apply runs_readArr|].
      eapply runs_bind; [exact Hearly|]. apply runs_ret.
    + unfold early0 in Ha. destruct rank as [r|]; [|discriminate].
      destruct (_ || _); [|discriminate].
      destruct (rankComparison _ _ _) as [s|]; [|discriminate].
      injection Ha as <-. apply Hpick.
  - set (h1 := <[newRank := sortBy byValueDesc c1]> h).
    assert (H01 : sameLens h h1).
    { apply sameLens_insert. exists c1. by rewrite sortBy_length. }
    destruct (H01 _ _ Hbest) as (c2' & Hc2' & Hk2').
    set (h2 := <[best := sortBy byValueDesc c2']> h1).
    assert (H12 : sameLens h1 h2).
    { apply sameLens_insert. exists c2'. by rewrite sortBy_length. }
    destruct (H12 _ _ (H01 _ _ (ex_intro _ c1 (conj Hc1 Hk1))))
      as (c1'' & Hc1'' & Hk1'').
    destruct (H12 _ _ (H01 _ _ Hbest)) as (c2'' & Hc2'' & Hk2'').
    destruct (firstDifference_returns c1'' c2'' ltac:(lia)) as [s Hs].
    exists (match s with NewSide => newRank | BestSide => best end), h2.
    split; [|split; [apply Hpick|by apply (sameLens_trans h h1 h2)]].
    eapply runs_bind; [by apply runs_readArr|].
    eapply runs_bind; [exact Hearly|].
    eapply runs_bind; [apply runs_writeArr|].
    eapply runs_bind; [by apply runs_readArr|].
    eapply runs_bind; [apply runs_writeArr|].
    eapply runs_bind; [by apply runs_readArr|].
    eapply runs_bind; [by apply runs_readArr|].
    rewrite Hs. eapply runs_bind; [apply runs_lift|]. apply runs_ret.
Qed.

Lemma sameLens_prefix h h' : h `prefix_of` h' -> sameLens h h'.
Proof. intros [e ->]. apply sameLens_app. Qed.

Lemma slice_one_length {A} (cs : list A) (i : nat) :
  (i < length cs)%nat ->
  length (slice cs (Z.of_nat i) (Z.of_nat i + 1)) = 1%nat.
Proof.
  intros Hi. unfold slice, relIndex.
  destruct (Z.of_nat i <? 0) eqn:E1; [lia|].
  destruct (Z.of_nat i + 1 <? 0) eqn:E2; [lia|].
  rewrite length_take, length_drop. lia.
Qed.

Lemma hasLen_alloc h cs : hasLen (h ++ [cs]) (length h) (length cs).
Proof. exists cs. split; [|reflexivity]. apply list_lookup_middle. reflexivity. Qed.

(** The arrays of one card each that [cards.map(card => [card])] makes. *)
Lemma singletons_return (cs : list Card) h :
  exists L h',
    runs (foldM (fun result card =>
                   let* one := alloc [card] in ret (result ++ [one])) cs [])
         h L h'
    /\ h `prefix_of` h' /\ Forall (fun a => hasLen h' a 1) L.
Proof.
  destruct (runs_foldM
              (fun result card =>
                 let* one := alloc [card] in ret (result ++ [one]))
              (fun h1 result =>
                 h `prefix_of` h1 /\ Forall (fun a => hasLen h1 a 1) result)
              (fun _ (_ : Card) => True)) with (l := cs) (h := h)
                                               (acc := @nil nat)
    as (L & h' & Hrun & [Hpre Hall] & _).
  - intros h1 acc card [Hpre Hacc] _.
    exists (acc ++ [length h1]), (h1 ++ [[card]]). split.
    + eapply runs_bind; [apply runs_alloc|]. apply runs_ret.
    + split; [|auto]. split.
      * etransitivity; [exact Hpre|]. by apply prefix_app_r.
      * apply Forall_app. split.
        -- eapply Forall_impl; [exact Hacc|]. intros a. apply sameLens_app.
        -- constructor; [|constructor]. apply (hasLen_alloc h1 [card]).
  - split; [reflexivity|constructor].
  - by apply Forall_true.
  - eauto.
Qed.

Lemma getAllCombinations_unfold cards k :
  getAllCombinations cards k
  = let* cs := readArr cards in
    if (length cs <? k)%nat || (k <? 1)%nat then ret []
    else if (k =? length cs)%nat then ret [cards]
    else if (k =? 1)%nat then
      foldM (fun result card =>
               let* one := alloc [card] in ret (result ++ [one])) cs []
    else
      match k with
      | O => ret []
      | S shorter =>
          foldM (combinationsFrom
                   (fun rest => getAllCombinations rest shorter) cs)
                (seq 0 (length cs - k + 1)) []
      end.
Proof. destruct k; reflexivity. Qed.

(** [getAllCombinations] only reads and allocates, and each combination
    it returns is an array of [k] cards. *)
Lemma getAllCombinations_returns k : forall cards h cs,
  h !! cards = Some cs ->
  exists L h', runs (getAllCombinations cards k) h L h'
    /\ h `prefix_of` h' /\ Forall (fun a => hasLen h' a k) L.
Proof.
  induction k as [|k IH]; intros cards h cs Hcs;
    rewrite getAllCombinations_unfold.
  - exists [], h. split; [|split; [reflexivity|constructor]].
    eapply runs_bind; [by apply runs_readArr|].
    rewrite orb_true_r. apply runs_ret.
  - destruct ((length cs <? S k)%nat || (S k <? 1)%nat) eqn:E1.
    { exists [], h. split; [|split; [reflexivity|constructor]].
      eapply runs_bind; [by apply runs_readArr|]. rewrite E1. apply runs_ret. }
    destruct (S k =? length cs)%nat eqn:E2.
    { exists [cards], h. split; [|split; [reflexivity|]].
      - eapply runs_bind; [by apply runs_readArr|]. rewrite E1, E2.
        apply runs_ret.
      - constructor; [|constructor]. exists cs.
        apply Nat.eqb_eq in E2. auto. }
    destruct (S k =? 1)%nat eqn:E3.
    { destruct (singletons_return cs h) as (L & h' & Hrun & Hpre & Hall).
      exists L, h'. split; [|split; [exact Hpre|]].
      - eapply runs_bind; [by apply runs_readArr|]. rewrite E1, E2.
        exact Hrun.
      - apply Nat.eqb_eq in E3. rewrite E3. exact Hall. }
    apply orb_false_iff in E1 as [E1 _]. apply Nat.ltb_ge in E1.
    destruct (runs_foldM
                (combinationsFrom
                   (fun rest => getAllCombinations rest k) cs)
                (fun h1 result =>
                   h `prefix_of` h1
                   /\ Forall (fun a => hasLen h1 a (S k)) result)
                (fun _ i => (i < length cs)%nat))
      with (l := seq 0 (length cs - S k + 1)) (h := h) (acc := @nil nat)
      as (L & h' & Hrun & [Hpre Hall] & _).
    + intros h1 result i [Hpre Hres] Hi. unfold combinationsFrom.
      set (hd := slice cs (Z.of_nat i) (Z.of_nat i + 1)).
      set (h2 := h1 ++ [hd]).
      set (h3 := h2 ++ [sliceFrom cs (Z.of_nat i + 1)]).
      destruct (IH (length h2) h3 (sliceFrom cs (Z.of_nat i + 1)))
        as (tail & h4 & Hrun4 & Hpre4 & Htail).
      { apply list_lookup_middle. reflexivity. }
      assert (Hhead : forall h5, h4 `prefix_of` h5 -> h5 !! length h1 = Some hd).
      { intros h5 H45. eapply prefix_lookup_Some; [|exact H45].
        eapply prefix_lookup_Some; [|exact Hpre4].
        unfold h3. apply lookup_app_l_Some.
        apply list_lookup_middle. reflexivity. }
      assert (H14 : h1 `prefix_of` h4).
      { etransitivity; [|exact Hpre4]. unfold h3, h2.
        rewrite <- app_assoc. by apply prefix_app_r. }
      destruct (runs_foldM
                  (fun result tailj =>
                     let* hd := readArr (length h1) in
                     let* tl := readArr tailj in
                     let* combination := alloc (hd ++ tl) in
                     ret (result ++ [combination]))
                  (fun h5 result =>
                     h4 `prefix_of` h5
                     /\ Forall (fun a => hasLen h5 a (S k)) result)
                  (fun h5 t => hasLen h5 t k))
        with (l := tail) (h := h4) (acc := result)
        as (L & h' & Hrun' & [Hpre' Hall'] & _).
      * intros h5 acc t [H45 Hacc] (tl & Htl & Hlen).
        exists (acc ++ [length h5]), (h5 ++ [hd ++ tl]). split.
        -- eapply runs_bind; [apply runs_readArr; by apply Hhead|].
           eapply runs_bind; [by apply runs_readArr|].
           eapply runs_bind; [apply runs_alloc|]. apply runs_ret.
        -- split; [split|].
           ++ etransitivity; [exact H45|]. by apply prefix_app_r.
           ++ apply Forall_app. split.
              ** eapply Forall_impl; [exact Hacc|]. intros a.
                 apply sameLens_app.
              ** constructor; [|constructor].
                 replace (S k) with (length (hd ++ tl)).
                 { apply hasLen_alloc. }
                 rewrite length_app, Hlen. unfold hd.
                 by rewrite slice_one_length.
           ++ intros y. apply sameLens_app.
      * split; [reflexivity|].
        eapply Forall_impl; [exact Hres|]. intros a.
        by apply sameLens_prefix.
      * exact Htail.
      * exists L, h'. split; [|split; [split|auto]].
        -- eapply runs_bind; [apply runs_alloc|].
           eapply runs_bind; [apply runs_alloc|].
           eapply runs_bind; [exact Hrun4|]. exact Hrun'.
        -- etransitivity; [exact Hpre|]. by etransitivity.
        -- exact Hall'.
    + split; [reflexivity|constructor].
    + apply Forall_forall. intros i Hi. apply elem_of_seq in Hi. lia.
    + exists L, h'. split; [|auto].
      eapply runs_bind; [by apply runs_readArr|].
      replace ((length cs <? S k)%nat || (S k <? 1)%nat) with false
        by (symmetry; apply orb_false_iff; split;
            [by apply Nat.ltb_ge|reflexivity]).
      rewrite E2. exact Hrun.
Qed.

(** On at least five cards [bestRank] returns. *)
Lemma bestRank_returns h playerCards tableCards hole community :
  h !! playerCards = Some hole -> h !! tableCards = Some community ->
  exists best h', runs (bestRank playerCards tableCards) h best h'.
Proof.
  intros Hpc Htc. unfold bestRank.
  set (h1 := h ++ [hole ++ community]).
  destruct (getAllCombinations_returns 5 (length h) h1 (hole ++ community))
    as (L & h2 & Hrun2 & _ & Hall2).
  { apply list_lookup_middle. reflexivity. }
  set (h3 := h2 ++ [[]]).
  destruct (runs_foldM
              (fun acc curr =>
                 let* newRank := getRankAt curr in
                 if bestRankOf acc <? newRank then
                   ret {| bestCards := curr; bestRankOf := newRank |}
                 else if bestRankOf acc =? newRank then
                   let* winner :=
                     compareWithSameRank curr (Some (bestCards acc))
                       (Some newRank) in
                   ret {| bestCards := winner; bestRankOf := newRank |}
                 else ret acc)
              (fun h4 acc =>
                 bestRankOf acc = 0 \/ hasLen h4 (bestCards acc) 5)
              (fun h4 curr => hasLen h4 curr 5))
    with (l := L) (h := h3)
         (acc := {| bestCards := length h2; bestRankOf := 0 |})
    as (best & h' & Hrun & _).
  - intros h4 acc curr Hacc Hcurr.
    destruct (getRankAt_returns curr h4 Hcurr) as (r & h5 & Hrun5 & H45 & Hr).
    unfold HIGH_CARD in Hr.
    destruct (bestRankOf acc <? r) eqn:E1;
      [|destruct (bestRankOf acc =? r) eqn:E2].
    + exists {| bestCards := curr; bestRankOf := r |}, h5. split; [|split].
      * eapply runs_bind; [exact Hrun5|]. rewrite E1. apply runs_ret.
      * right. simpl. by apply H45.
      * intros y. apply H45.
    + destruct Hacc as [Hzero|Hbest]; [lia|].
      destruct (compareWithSameRank_returns curr (bestCards acc) (Some r) h5 5)
        as (w & h6 & Hrun6 & Hw & H56); [auto|auto|].
      exists {| bestCards := w; bestRankOf := r |}, h6.
      split; [|split].
      * eapply runs_bind; [exact Hrun5|]. rewrite E1, E2.
        eapply runs_bind; [exact Hrun6|]. apply runs_ret.
      * right. simpl. destruct Hw as [-> | ->]; auto.
      * intros y Hy. auto.
    + exists acc, h5. split; [|split].
      * eapply runs_bind; [exact Hrun5|]. rewrite E1, E2. apply runs_ret.
      * destruct Hacc; auto.
      * intros y. apply H45.
  - left. reflexivity.
  - eapply Forall_impl; [exact Hall2|]. intros a. apply sameLens_app.
  - exists best, h'.
    eapply runs_bind; [by apply runs_readArr|].
    eapply runs_bind; [by apply runs_readArr|].
    eapply runs_bind; [apply runs_alloc|].
    eapply runs_bind; [exact Hrun2|].
    eapply runs_bind; [apply runs_alloc|]. exact Hrun.
Qed.

(** C10. [bestRank] returns, and when it has returned every array that
    existed before the call, the two argument arrays among them, holds
    the cards it held, in the same order: the arrays that [getRank] and
    [compareWithSameRank] sort in place are copies made during the call.
    Card objects are values of the embedding; no statement of the
    evaluator assigns to one. *)
Theorem bestRank_no_side_effects h playerCards tableCards hole community :
  h !! playerCards = Some hole -> h !! tableCards = Some community ->
  exists best h',
    bestRank playerCards tableCards h = (Returned best, h')
    /\ h' !! playerCards = Some hole
    /\ h' !! tableCards = Some community
    /\ (forall a, (a < length h)%nat -> h' !! a = h !! a).
Proof.
  intros Hpc Htc.
  destruct (bestRank_returns h playerCards tableCards hole community Hpc Htc)
    as (best & h' & Hrun).
  destruct (spares_bestRank (length h) playerCards tableCards h (le_n _))
    as (_ & Hkeep & _).
  unfold runs in Hrun. rewrite Hrun in Hkeep. simpl in Hkeep.
  exists best, h'. split; [exact Hrun|].
  split; [|split; [|exact Hkeep]].
  - rewrite Hkeep; [exact Hpc|]. eapply lookup_lt_Some; eauto.
  - rewrite Hkeep; [exact Htc|]. eapply lookup_lt_Some; eauto.
Qed.

Lemma bestRank_no_side_effects_witness :
  exists best h',
    bestRank 1%nat 0%nat royalBoard = (Returned best, h')
    /\ h' !! 1%nat = Some [createCard RK Spades; createCard RA Spades]
    /\ bestRankOf best = ROYAL_FLUSH.
Proof.
  destruct (bestRank_no_side_effects royalBoard 1%nat 0%nat
              [createCard RK Spades; createCard RA Spades]
              [createCard R10 Spades; createCard RJ Spades;
               createCard RQ Spades; createCard R2 Hearts;
               createCard R2 Diamonds] eq_refl eq_refl)
    as (best & h' & Hrun & Hpc & _ & _).
  exists best, h'. split; [exact Hrun|]. split; [exact Hpc|].
  assert (Hfst : (bestRank 1%nat 0%nat royalBoard).1 = Returned best)
    by (rewrite Hrun; reflexivity).
  vm_compute in Hfst. injection Hfst as <-. reflexivity.
Defined.

(** * Further properties of the code *)

(** ** The deck *)

(** X1. The deck of [createDeck] holds each of the 52 cards that
    [createCard] can build exactly once, and nothing else. *)
Theorem createDeck_complete :
  length (cards createDeck) = 52%nat
  /\ remaining createDeck = 52
  /\ NoDup (cards createDeck)
  /\ forall c, c ∈ cards createDeck <-> validCard c.
Proof.
  split; [reflexivity|]. split; [reflexivity|]. split.
  - apply (bool_decide_unpack _). vm_compute. exact I.
  - intros c. split.
    + revert c. apply Forall_forall. unfold validCard.
      repeat constructor.
    + destruct c as [r s v]. unfold validCard. simpl. intros ->.
      destruct r, s; apply (bool_decide_unpack _); vm_compute; exact I.
Qed.

Lemma swap_head {A} (l : list A) j a y :
  l !! j = Some y -> y :: <[j := a]> l ≡ₚ a :: l.
Proof.
  revert j. induction l as [|b l IH]; intros [|j] Hj; simpl in *;
    try discriminate.
  - injection Hj as ->. apply Permutation_swap.
  - etransitivity; [apply Permutation_swap|].
    etransitivity; [apply Permutation_skip, (IH j Hj)|].
    apply Permutation_swap.
Qed.

Lemma swap_ordered {A} (l : list A) : forall i j x y,
  (i < j)%nat -> l !! i = Some x -> l !! j = Some y ->
  <[j := x]> (<[i := y]> l) ≡ₚ l.
Proof.
  induction l as [|a l IH]; intros [|i] [|j] x y Hij Hi Hj; simpl in *;
    try discriminate; try lia.
  - injection Hi as ->. by apply swap_head.
  - f_equiv. apply (IH i j); [lia|done|done].
Qed.

Lemma swap_perm {A} (l : list A) i j : swap l i j ≡ₚ l.
Proof.
  unfold swap. destruct (l !! i) as [x|] eqn:Hi; [|reflexivity].
  destruct (l !! j) as [y|] eqn:Hj; [|reflexivity].
  destruct (Nat.lt_trichotomy i j) as [Hlt|[->|Hgt]].
  - by apply swap_ordered.
  - rewrite Hi in Hj. injection Hj as ->.
    rewrite list_insert_insert_eq. by rewrite list_insert_id.
  - rewrite list_insert_insert_ne by lia. by apply swap_ordered.
Qed.

Lemma shuffleFrom_perm pick i : forall l, shuffleFrom pick i l ≡ₚ l.
Proof.
  induction i as [|i IH]; intros l; simpl; [reflexivity|].
  rewrite IH. apply swap_perm.
Qed.

(** X2. Whatever the random draws, [shuffleDeck] returns a deck with the
    same cards in some order, none lost and none doubled, whose
    [remaining] is their number. *)
Theorem shuffleDeck_permutation pick deck :
  cards (shuffleDeck pick deck) ≡ₚ cards deck
  /\ length (cards (shuffleDeck pick deck)) = length (cards deck)
  /\ deck_wf (shuffleDeck pick deck).
Proof.
  pose proof (shuffleFrom_perm pick (length (cards deck) - 1) (cards deck))
    as Hp.
  split; [exact Hp|]. split; [|reflexivity].
  apply Permutation_length. exact Hp.
Qed.

Lemma dealCards_take_drop D k :
  deck_wf D -> 0 <= k <= remaining D ->
  dealCards D k
  = Returned
      {| dealtCards := take (Z.to_nat k) (cards D);
         remainingDeck :=
           {| cards := drop (Z.to_nat k) (cards D);
              remaining := remaining D - k |} |}.
Proof.
  unfold deck_wf. intros Hwf Hk. unfold dealCards.
  destruct (k >? remaining D) eqn:E; [lia|].
  rewrite slice_prefix, sliceFrom_suffix by lia.
  rewrite length_drop. do 3 f_equal. lia.
Qed.

(** X3. Dealing [k1] cards and then [k2] cards from what remains gives the
    same cards, in the same order, and the same remaining deck as dealing
    [k1 + k2] cards at once. *)
Theorem dealCards_twice D k1 k2 :
  deck_wf D -> 0 <= k1 -> 0 <= k2 -> k1 + k2 <= remaining D ->
  exists r1 r2 r,
    dealCards D k1 = Returned r1
    /\ dealCards (remainingDeck r1) k2 = Returned r2
    /\ dealCards D (k1 + k2) = Returned r
    /\ dealtCards r = dealtCards r1 ++ dealtCards r2
    /\ remainingDeck r = remainingDeck r2.
Proof.
  intros Hwf H1 H2 Hsum.
  pose proof (dealCards_take_drop D k1 Hwf ltac:(lia)) as Hr1.
  pose proof (dealCards_wf _ _ _ Hr1) as Hwf1.
  eexists _, _, _. split; [exact Hr1|].
  split; [apply dealCards_take_drop; [exact Hwf1|simpl; lia]|].
  split; [apply dealCards_take_drop; [exact Hwf|lia]|].
  simpl. split.
  - rewrite Z2Nat.inj_add by lia. rewrite Nat.add_comm.
    rewrite <- (take_drop (Z.to_nat k1)
                  (take (Z.to_nat k2 + Z.to_nat k1) (cards D))).
    rewrite take_take, skipn_firstn_comm.
    f_equal; f_equal; lia.
  - rewrite drop_drop. f_equal; [f_equal|]; lia.
Qed.

Lemma dealCards_twice_witness :
  exists r1 r2 r,
    dealCards createDeck 2 = Returned r1
    /\ dealCards (remainingDeck r1) 3 = Returned r2
    /\ dealCards createDeck 5 = Returned r
    /\ dealtCards r = dealtCards r1 ++ dealtCards r2.
Proof.
  destruct (dealCards_twice createDeck 2 3 createDeck_wf)
    as (r1 & r2 & r & H1 & H2 & H & Hd & _);
    [lia | lia | rewrite createDeck_52; lia |].
  exists r1, r2, r. auto.
Defined.

(** X4. A negative count is not rejected: [dealCards(deck, -m)] returns all
    but the last [m] cards as dealt and a deck of the last [m] cards (of
    all the cards when the deck has fewer than [m]). *)
Theorem dealCards_negative_count D k :
  deck_wf D -> k < 0 ->
  let keep := (length (cards D) - Z.to_nat (- k))%nat in
  exists r, dealCards D k = Returned r
    /\ dealtCards r = take keep (cards D)
    /\ cards (remainingDeck r) = drop keep (cards D)
    /\ (- k <= remaining D -> remaining (remainingDeck r) = - k).
Proof.
  intros Hwf Hk keep. unfold deck_wf in Hwf. unfold dealCards.
  destruct (k >? remaining D) eqn:E; [lia|].
  eexists. split; [reflexivity|]. simpl.
  unfold slice, sliceFrom, relIndex. simpl.
  destruct (k <? 0) eqn:E2; [|lia].
  replace (Z.to_nat (Z.max (Z.of_nat (length (cards D)) + k) 0)) with keep
    by (unfold keep; lia).
  rewrite drop_0, Nat.sub_0_r. split; [reflexivity|]. split; [reflexivity|].
  intros Hm. rewrite length_drop. unfold keep. lia.
Qed.

Lemma dealCards_negative_count_witness :
  exists r, dealCards createDeck (-2) = Returned r
    /\ length (dealtCards r) = 50%nat
    /\ remaining (remainingDeck r) = 2.
Proof.
  destruct (dealCards_negative_count createDeck (-2) createDeck_wf)
    as (r & Hr & Hd & _ & Hrem); [lia|].
  exists r. split; [exact Hr|]. split.
  - rewrite Hd. reflexivity.
  - apply Hrem. rewrite createDeck_52. lia.
Defined.

(** ** Counting cards *)

Lemma rankCount_below v (m : list (Z * Z)) :
  Forall (fun x => v < x) (map fst m) ->
  List.find (fun kv : Z * Z => bool_decide (kv.1 = v)) m = None.
Proof.
  induction m as [|[k n] m IH]; simpl; [reflexivity|].
  intros Hall. apply Forall_cons in Hall as [Hk Hall].
  rewrite bool_decide_eq_false_2 by lia. auto.
Qed.

Lemma rankCount_bump k m v :
  Sorted Z.lt (map fst m) ->
  Sorted Z.lt (map fst (bump k m))
  /\ rankCount (bump k m) v
     = if decide (k = v) then Some (default 0 (rankCount m v) + 1)
       else rankCount m v.
Proof.
  unfold rankCount. induction m as [|[k' n] m IH]; simpl; intros Hs.
  - split; [repeat constructor|].
    rewrite (bool_decide_decide (k = v)). by destruct (decide (k = v)).
  - apply Sorted_inv in Hs as [Hs Hhd].
    destruct (k =? k') eqn:E1.
    + apply Z.eqb_eq in E1 as ->. split; [by constructor|]. simpl.
      rewrite (bool_decide_decide (k' = v)). by destruct (decide (k' = v)).
    + apply Z.eqb_neq in E1. destruct (k <? k') eqn:E2.
      * apply Z.ltb_lt in E2. split.
        { simpl. constructor; [by constructor|]. by constructor. }
        simpl. rewrite (bool_decide_decide (k = v)).
        destruct (decide (k = v)) as [->|Hne]; [|reflexivity].
        rewrite bool_decide_eq_false_2 by lia.
        assert (Hnone : List.find (fun kv : Z * Z => bool_decide (kv.1 = v)) m
                        = None).
        { apply rankCount_below.
          assert (Hss : StronglySorted Z.lt (k' :: map fst m)).
          { apply Sorted_StronglySorted; [intros ???; lia|by constructor]. }
          apply StronglySorted_inv in Hss as [_ Hall].
          eapply Forall_impl; [exact Hall|]. simpl. intros. lia. }
        rewrite Hnone. reflexivity.
      * apply Z.ltb_ge in E2. destruct (IH Hs) as [Hs' Hl]. split.
        { simpl. constructor; [exact Hs'|].
          destruct m as [|[k2 n2] m]; simpl.
          - constructor. lia.
          - apply HdRel_inv in Hhd. simpl in Hhd.
            destruct (k =? k2); [by constructor|].
            destruct (k <? k2); constructor; simpl; lia. }
        simpl. rewrite (bool_decide_decide (k' = v)).
        destruct (decide (k' = v)) as [->|Hne].
        { simpl. by rewrite decide_False by lia. }
        exact Hl.
Qed.

Lemma countByRank_snoc cards c :
  countByRank (cards ++ [c]) = bump (value c) (countByRank cards).
Proof. unfold countByRank. by rewrite foldl_app. Qed.

Lemma countByRank_sorted cards : Sorted Z.lt (map fst (countByRank cards)).
Proof.
  induction cards as [|c cards IH] using rev_ind; [constructor|].
  rewrite countByRank_snoc. exact (proj1 (rankCount_bump (value c) _ 0 IH)).
Qed.

(** X5. [countByRank(cards)[v]] is the number of cards of value [v], and
    [undefined] when there is none; the keys of the object are the values
    that occur, each once. *)
Theorem countByRank_counts cards v :
  let n := length (filter (fun c => value c = v) cards) in
  rankCount (countByRank cards) v
  = (if (n =? 0)%nat then None else Some (Z.of_nat n))
  /\ NoDup (map fst (countByRank cards)).
Proof.
  split.
  - induction cards as [|c cards IH] using rev_ind; [reflexivity|].
    rewrite countByRank_snoc.
    destruct (rankCount_bump (value c) (countByRank cards) v
                (countByRank_sorted cards)) as [_ ->].
    rewrite IH, filter_app, length_app. clear IH.
    rewrite filter_cons, filter_nil.
    destruct (decide (value c = v)); simpl.
    + destruct (length _ =? 0)%nat eqn:E.
      * apply Nat.eqb_eq in E. rewrite E. reflexivity.
      * apply Nat.eqb_neq in E.
        replace (length _ + 1 =? 0)%nat with false
          by (symmetry; apply Nat.eqb_neq; lia).
        simpl. f_equal. lia.
    + by rewrite Nat.add_0_r.
  - pose proof (countByRank_sorted cards) as Hs.
    apply Sorted_StronglySorted in Hs; [|intros ???; lia].
    induction Hs as [|k ks _ IH Hk]; constructor; [|exact IH].
    intros Hin. rewrite Forall_forall in Hk. specialize (Hk _ Hin). lia.
Qed.

Lemma suitCount_bump s m t :
  suitCount (bumpSuit s m) t
  = if decide (s = t) then Some (default 0 (suitCount m t) + 1)
    else suitCount m t.
Proof.
  unfold suitCount. induction m as [|[s' n] m IH]; simpl.
  - rewrite (bool_decide_decide (s = t)). by destruct (decide (s = t)).
  - destruct (decide (s' = s)) as [->|Hne]; simpl;
      rewrite (bool_decide_decide (_ = t)).
    + by destruct (decide (s = t)).
    + destruct (decide (s' = t)) as [->|Hne']; [|exact IH].
      simpl. by rewrite decide_False.
Qed.

(** X6. [countBySuit(cards)[s]] is the number of cards that
    [filterBySuit] keeps for the suit [s], and [undefined] when it keeps
    none. *)
Theorem countBySuit_filterBySuit deck s :
  let n := length (filterBySuit deck s) in
  suitCount (countBySuit (cards deck)) s
  = if (n =? 0)%nat then None else Some (Z.of_nat n).
Proof.
  unfold filterBySuit, countBySuit. simpl.
  induction (cards deck) as [|c cs IH] using rev_ind; [reflexivity|].
  rewrite foldl_app. simpl. rewrite suitCount_bump, IH.
  rewrite filter_app, length_app, filter_cons, filter_nil. clear IH.
  destruct (decide (suit c = s)); simpl.
  - destruct (length _ =? 0)%nat eqn:E.
    + apply Nat.eqb_eq in E. rewrite E. reflexivity.
    + apply Nat.eqb_neq in E.
      replace (length _ + 1 =? 0)%nat with false
        by (symmetry; apply Nat.eqb_neq; lia).
      simpl. f_equal. lia.
  - by rewrite Nat.add_0_r.
Qed.

(** X7. However a full deck is shuffled, [filterBySuit] finds 13 cards of
    each suit in it and [filterByRank] 4 cards of each rank. *)
Theorem shuffled_deck_filters pick s r :
  length (filterBySuit (shuffleDeck pick createDeck) s) = 13%nat
  /\ length (filterByRank (shuffleDeck pick createDeck) r) = 4%nat.
Proof.
  pose proof (shuffleFrom_perm pick (length (cards createDeck) - 1)
                (cards createDeck)) as Hp.
  unfold filterBySuit, filterByRank, shuffleDeck. cbn [cards].
  split.
  - rewrite Hp. destruct s; reflexivity.
  - rewrite Hp. destruct r; reflexivity.
Qed.

(** ** Players *)

(** X8. A call to [currentCall] and a raise to the same total are the
    same bet. When it succeeds the per-phase bet of the returned player is
    that total, the chips moved come out of the stack, nothing else of the
    player changes, the stack stays non-negative, and the returned player
    is flagged all-in exactly if the argument was or the stack is now
    empty. *)
Theorem bet_reaches_target player target p' player' :
  call player target = raise player target
  /\ (raise player target = (Returned p', player') ->
      currentBet p' = target
      /\ chips p' + currentBet p' = chips player + currentBet player
      /\ (0 <= chips player -> 0 <= chips p')
      /\ id p' = id player /\ name p' = name player /\ hand p' = hand player
      /\ hasFolded p' = false
      /\ isInAllIn p' = isInAllIn player || (chips p' =? 0)).
Proof.
  split; [reflexivity|]. unfold raise, placeBet.
  destruct (hasFolded player) eqn:Hf; [discriminate|].
  destruct (_ >? chips player) eqn:E1; [discriminate|].
  destruct (chips player =? _) eqn:E2;
    [destruct (frozen player); [discriminate|]|];
    intros [= Hp Hq]; subst p' player'; simpl; rewrite ?Hf.
  - apply Z.eqb_eq in E2. rewrite E2, Z.sub_diag. simpl.
    rewrite orb_true_r. repeat split; lia.
  - apply Z.eqb_neq in E2.
    replace (chips player - (target - currentBet player) =? 0) with false
      by (symmetry; apply Z.eqb_neq; lia).
    rewrite orb_false_r. repeat split; lia.
Qed.

Lemma bet_reaches_target_witness :
  exists p' player',
    raise (createPlayer "a" "Alice" 1000) 40 = (Returned p', player')
    /\ currentBet p' = 40 /\ chips p' = 960.
Proof.
  set (alice0 := createPlayer "a" "Alice" 1000).
  exists (afterBet alice0 40), alice0. split; [reflexivity|].
  destruct (bet_reaches_target alice0 40 (afterBet alice0 40) alice0)
    as [_ H].
  destruct (H eq_refl) as (Hb & Hsum & _). split; [exact Hb|].
  reflexivity.
Defined.

(** X9. Folding marks the player folded and touches nothing else; a
    folded player can neither fold again nor place a bet of any amount:
    both throw and leave the player as it was. *)
Theorem folded_player_is_out player amount :
  (forall p', fold player = Returned p' ->
     hasFolded p' = true /\ chips p' = chips player
     /\ currentBet p' = currentBet player /\ id p' = id player
     /\ hand p' = hand player /\ isInAllIn p' = isInAllIn player)
  /\ (hasFolded player = true ->
      (exists msg, fold player = Thrown (Error msg))
      /\ (exists msg, placeBet player amount = (Thrown (Error msg), player))
      /\ (exists msg, call player amount = (Thrown (Error msg), player))).
Proof.
  split.
  - intros p'. unfold fold. destruct (hasFolded player); [discriminate|].
    intros [= <-]. simpl. repeat split; reflexivity.
  - intros Hf. unfold call, placeBet, fold. rewrite Hf.
    repeat split; eexists; reflexivity.
Qed.

Lemma folded_player_is_out_witness :
  exists msg,
    placeBet (mkPlayer "a" "Alice" 1000 [] 0 true false true) 10
    = (Thrown (Error msg), mkPlayer "a" "Alice" 1000 [] 0 true false true).
Proof.
  destruct (folded_player_is_out
              (mkPlayer "a" "Alice" 1000 [] 0 true false true) 10)
    as [_ H].
  destruct (H eq_refl) as (_ & Hbet & _). exact Hbet.
Defined.

Lemma leader_stays_NaN rest :
  foldl (fun acc cur => mathMax (chipsOf acc) (Some (chips cur)))
        LeaderNaN rest = LeaderNaN.
Proof. induction rest as [|p rest IH]; simpl; auto. Qed.

(** X10. [getLeader] returns a player only for a single player: of two
    players it returns the larger chip count, a number; of three or more
    it returns [NaN]; of none it throws. *)
Theorem getLeader_cases players :
  getLeader players
  = match players with
    | [] => Thrown (TypeError "Reduce of empty array with no initial value")
    | [p] => Returned (LeaderPlayer p)
    | [p; q] => Returned (LeaderNumber (Z.max (chips p) (chips q)))
    | _ => Returned LeaderNaN
    end.
Proof.
  destruct players as [|p [|q [|r rest]]]; try reflexivity.
  unfold getLeader. simpl. by rewrite leader_stays_NaN.
Qed.

(** ** Community cards *)

Lemma drawOne_top g d c cs :
  deck g = Some d -> cards d = c :: cs -> 1 <= remaining d ->
  drawOne g
  = (Returned (Some c),
     withDeck g {| cards := cs; remaining := Z.of_nat (length cs) |}).
Proof.
  intros Hd Hc Hrem. unfold drawOne, dealCards. rewrite Hd.
  destruct (1 >? remaining d) eqn:E; [lia|].
  rewrite Hc, slice_head, sliceFrom_tail. reflexivity.
Qed.

Lemma drawOne_empty g d :
  deck g = Some d -> deck_wf d -> cards d = [] ->
  exists msg, drawOne g = (Thrown (Error msg), g).
Proof.
  unfold deck_wf. intros Hd Hwf Hc. unfold drawOne, dealCards. rewrite Hd.
  rewrite Hc in Hwf. simpl in Hwf.
  destruct (1 >? remaining d) eqn:E; [eauto|lia].
Qed.

Lemma revealOne_top g c cs :
  deck g = Some {| cards := c :: cs; remaining := Z.of_nat (length (c :: cs)) |} ->
  revealOne g
  = (Returned tt,
     withTable
       (withDeck g {| cards := cs; remaining := Z.of_nat (length cs) |})
       (tableCard g ++ [c])).
Proof.
  intros Hd. unfold revealOne.
  rewrite (drawOne_top g _ c cs Hd eq_refl) by (simpl; lia). reflexivity.
Qed.

Lemma revealOne_empty g :
  deck g = Some {| cards := []; remaining := 0 |} ->
  exists msg, revealOne g = (Thrown (Error msg), g).
Proof.
  intros Hd. unfold revealOne.
  destruct (drawOne_empty g _ Hd eq_refl eq_refl) as [msg ->]. eauto.
Qed.

Ltac reveal_top := erewrite revealOne_top by reflexivity.
Ltac draw_top :=
  erewrite drawOne_top; [|reflexivity|reflexivity|simpl; lia].

(** X11. With eight cards or more in the deck, the flop, the turn and the
    river all succeed: they burn the cards number 0, 4 and 6 of the deck,
    lay the cards number 1, 2, 3, then 5, then 7 on the table in this
    order and leave the rest of the deck; the flop keeps the table bet,
    the turn and the river reset it to 0; the players are not touched. *)
Theorem community_cards g d b1 c1 c2 c3 b2 c4 b3 c5 rest :
  deck g = Some d -> deck_wf d ->
  cards d = b1 :: c1 :: c2 :: c3 :: b2 :: c4 :: b3 :: c5 :: rest ->
  exists g1 g2 g3,
    dealTableFlop g = (Returned tt, g1)
    /\ dealTableOneCard g1 = (Returned tt, g2)
    /\ dealTableOneCard g2 = (Returned tt, g3)
    /\ tableCard g1 = tableCard g ++ [c1; c2; c3]
    /\ tableCard g2 = tableCard g ++ [c1; c2; c3; c4]
    /\ tableCard g3 = tableCard g ++ [c1; c2; c3; c4; c5]
    /\ deck g3 = Some {| cards := rest; remaining := remaining d - 8 |}
    /\ currentBet_ g1 = currentBet_ g /\ currentBet_ g3 = 0
    /\ players g3 = players g /\ pot g3 = pot g.
Proof.
  unfold deck_wf. intros Hd Hwf Hc.
  unfold dealTableFlop.
  rewrite (drawOne_top g d b1 _ Hd Hc) by (rewrite Hwf, Hc; simpl; lia).
  cbn [revealMany]. do 3 reveal_top.
  eexists _, _, _. split; [reflexivity|].
  unfold dealTableOneCard. draw_top. reveal_top.
  split; [reflexivity|]. draw_top. reveal_top.
  split; [reflexivity|]. simpl.
  rewrite <- !app_assoc. simpl.
  repeat (split; [reflexivity|]).
  split; [|auto]. do 2 f_equal. rewrite Hwf, Hc. simpl length. lia.
Qed.

Lemma community_cards_witness :
  exists g1 g2 g3,
    dealTableFlop table3 = (Returned tt, g1)
    /\ dealTableOneCard g1 = (Returned tt, g2)
    /\ dealTableOneCard g2 = (Returned tt, g3)
    /\ length (tableCard g3) = 5%nat.
Proof.
  destruct (community_cards table3 createDeck
              (createCard R2 Spades) (createCard R3 Spades)
              (createCard R4 Spades) (createCard R5 Spades)
              (createCard R6 Spades) (createCard R7 Spades)
              (createCard R8 Spades) (createCard R9 Spades)
              (drop 8 (cards createDeck)) eq_refl createDeck_wf eq_refl)
    as (g1 & g2 & g3 & H1 & H2 & H3 & _ & _ & Ht & _).
  exists g1, g2, g3. rewrite Ht. auto.
Defined.

(** X12. With fewer than four cards in the deck [dealTableFlop] throws,
    but only once the deck has run out: by then the first card is burnt
    and the others lie on the table. *)
Theorem dealTableFlop_short_deck g d :
  deck g = Some d -> deck_wf d -> (length (cards d) < 4)%nat ->
  exists msg g',
    dealTableFlop g = (Thrown (Error msg), g')
    /\ tableCard g' = tableCard g ++ drop 1 (cards d)
    /\ (cards d <> [] ->
        deck g' = Some {| cards := []; remaining := 0 |})
    /\ (cards d = [] -> g' = g).
Proof.
  unfold deck_wf. intros Hd Hwf Hlen. unfold dealTableFlop.
  destruct (cards d) as [|b [|c1 [|c2 [|c3 cs]]]] eqn:Hc;
    [| | | |simpl in Hlen; lia].
  - assert (Hwf' : deck_wf d) by (unfold deck_wf; rewrite Hc; exact Hwf).
    destruct (drawOne_empty g d Hd Hwf' Hc) as [msg ->].
    exists msg, g. rewrite app_nil_r.
    split; [reflexivity|]. split; [reflexivity|].
    split; [intros Hne; by destruct Hne|reflexivity].
  - rewrite (drawOne_top g d b _ Hd Hc) by (rewrite Hwf; simpl; lia).
    cbn [revealMany].
    edestruct revealOne_empty as [msg ->]; [reflexivity|].
    eexists _, _. split; [reflexivity|]. simpl. rewrite app_nil_r.
    split; [reflexivity|]. split; [reflexivity|discriminate].
  - rewrite (drawOne_top g d b _ Hd Hc) by (rewrite Hwf; simpl; lia).
    cbn [revealMany]. reveal_top.
    edestruct revealOne_empty as [msg ->]; [reflexivity|].
    eexists _, _. split; [reflexivity|]. simpl.
    split; [reflexivity|]. split; [reflexivity|discriminate].
  - rewrite (drawOne_top g d b _ Hd Hc) by (rewrite Hwf; simpl; lia).
    cbn [revealMany]. do 2 reveal_top.
    edestruct revealOne_empty as [msg ->]; [reflexivity|].
    eexists _, _. split; [reflexivity|]. simpl. rewrite <- app_assoc.
    split; [reflexivity|]. split; [reflexivity|discriminate].
Qed.

Lemma dealTableFlop_short_deck_witness :
  exists msg g',
    dealTableFlop
      (withDeck table3
         {| cards := [createCard R2 Spades; createCard R3 Spades];
            remaining := 2 |})
    = (Thrown (Error msg), g')
    /\ tableCard g' = [createCard R3 Spades].
Proof.
  destruct (dealTableFlop_short_deck
              (withDeck table3
                 {| cards := [createCard R2 Spades; createCard R3 Spades];
                    remaining := 2 |}) _ eq_refl eq_refl)
    as (msg & g' & Hrun & Ht & _); [simpl; lia|].
  exists msg, g'. split; [exact Hrun|]. exact Ht.
Defined.

(** ** Chips in play *)

Lemma foldl_add_shift {A} (f : A -> Z) l a c :
  foldl (fun acc x => acc + f x) (a + c) l
  = foldl (fun acc x => acc + f x) a l + c.
Proof.
  revert a. induction l as [|x l IH]; intros a; simpl; [reflexivity|].
  replace (a + c + f x) with (a + f x + c) by lia. apply IH.
Qed.

Lemma foldl_add_insert {A} (f : A -> Z) l : forall i p q a,
  l !! i = Some p ->
  foldl (fun acc x => acc + f x) a (<[i := q]> l)
  = foldl (fun acc x => acc + f x) a l - f p + f q.
Proof.
  induction l as [|x l IH]; intros [|i] p q a Hi; simpl in *;
    try discriminate.
  - injection Hi as ->.
    rewrite (foldl_add_shift f l a (f q)), (foldl_add_shift f l a (f p)). lia.
  - by apply IH.
Qed.

Lemma at_lookup {A} (l : list A) i x :
  at_ l i = Some x -> l !! Z.to_nat i = Some x.
Proof. unfold at_. by destruct (i <? 0). Qed.

(** The seat of [player] after a successful bet holds the returned
    player. *)
Lemma bet_players g idx player player' p' :
  at_ (players g) idx = Some player ->
  players (setPlayer (setPlayer g idx player') idx p')
  = <[Z.to_nat idx := p']> (players g).
Proof. intros _. simpl. apply list_insert_insert_eq. Qed.

(** X13. A processed action moves chips between a stack and the pot
    without making or losing any, except a call whose [amount] differs
    from what the player owes: the stack pays the debt
    [currentBet - player.currentBet] while the pot grows by [amount]. The
    sum of the per-phase bets grows by what the stack paid. *)
Theorem processAction_chips g player action idx g' :
  at_ (players g) idx = Some player ->
  processAction g player action idx = (Returned tt, g') ->
  totalChips (players g') + pot g'
  = totalChips (players g) + pot g
    + match action with
      | ACall amount => amount - (currentBet_ g - currentBet player)
      | _ => 0
      end
  /\ getPot (players g')
     = getPot (players g)
       + match action with
         | ACall _ => currentBet_ g - currentBet player
         | ARaise target => target - currentBet player
         | _ => 0
         end.
Proof.
  intros Hat. pose proof (at_lookup _ _ _ Hat) as Hl.
  unfold totalChips, getPot. destruct action as [| |a|t]; simpl.
  - destruct (fold player) as [p'|] eqn:Hf; [|discriminate].
    intros [= <-]. simpl.
    rewrite !(foldl_add_insert _ _ _ player p') by exact Hl.
    unfold fold in Hf. destruct (hasFolded player); [discriminate|].
    injection Hf as <-. simpl. lia.
  - intros [= <-]. lia.
  - unfold call. destruct (placeBet player _) as [[p'|e] player'] eqn:Hb;
      [|discriminate].
    intros [= <-]. cbn [players pot withPot].
    rewrite (bet_players g idx player player' p' Hat).
    rewrite !(foldl_add_insert _ _ _ player p') by exact Hl.
    destruct (placeBet_result _ _ _ _ Hb) as (_ & _ & _ & Hc & Hcb & _).
    simpl. lia.
  - unfold raise. destruct (placeBet player _) as [[p'|e] player'] eqn:Hb;
      [|discriminate].
    intros [= <-]. cbn [players pot withPot withCurrentBet].
    rewrite (bet_players g idx player player' p' Hat).
    rewrite !(foldl_add_insert _ _ _ player p') by exact Hl.
    destruct (placeBet_result _ _ _ _ Hb) as (_ & _ & _ & Hc & Hcb & _).
    destruct (placeBet_argument _ _ _ _ Hb) as (_ & _ & Hcb' & _).
    simpl. lia.
Qed.

Lemma processAction_chips_witness :
  exists g',
    processAction preFlop3
      (giveCard (HArray [createCard R7 Spades])
         (giveCard (HArray [createCard R4 Spades])
            (createPlayer "c" "Charlie" 1000)))
      (ARaise 40) 2
    = (Returned tt, g')
    /\ totalChips (players g') + pot g' = 3000.
Proof.
  eexists. split; [vm_compute; reflexivity|].
  match goal with |- totalChips (players ?g1) + _ = _ => set (g' := g1) end.
  destruct (processAction_chips preFlop3
              (giveCard (HArray [createCard R7 Spades])
                 (giveCard (HArray [createCard R4 Spades])
                    (createPlayer "c" "Charlie" 1000)))
              (ARaise 40) 2 g') as [H _];
    [vm_compute; reflexivity | vm_compute; reflexivity |].
  rewrite H. reflexivity.
Defined.

(** ** A hand won without showdown *)

Lemma findIndexById_seat ps k p :
  NoDup (map id ps) -> ps !! k = Some p ->
  findIndexById (id p) ps = Z.of_nat k.
Proof.
  revert k. induction ps as [|y ps IH]; intros k Hnd Hk; [discriminate|].
  simpl in Hnd. apply NoDup_cons in Hnd as [Hy Hnd]. simpl.
  destruct (bool_decide (id y = id p)) eqn:E.
  - apply bool_decide_eq_true in E.
    destruct k as [|k]; [reflexivity|]. simpl in Hk.
    exfalso. apply Hy. rewrite E. apply list_elem_of_fmap. exists p.
    split; [reflexivity|]. eapply list_elem_of_lookup_2; eauto.
  - apply bool_decide_eq_false in E.
    destruct k as [|k]; simpl in Hk; [congruence|].
    rewrite (IH k Hnd Hk). destruct (Z.of_nat k <? 0) eqn:E2; lia.
Qed.

(** The first element that a filter keeps, and what stands before it. *)
Lemma filter_first {A} (P : A -> Prop) `{forall x, Decision (P x)} l w rest :
  filter P l = w :: rest ->
  exists pre post, l = pre ++ w :: post /\ Forall (fun x => ~ P x) pre /\ P w.
Proof.
  induction l as [|x l IH]; [discriminate|].
  rewrite filter_cons. destruct (decide (P x)) as [Hx|Hx].
  - intros [= -> _]. exists [], l. auto.
  - intros Hf. destruct (IH Hf) as (pre & post & -> & Hpre & Hw).
    exists (x :: pre), post. auto.
Qed.

(** X14. When somebody has not folded and the players have different ids,
    [resolveWinner] gives the whole pot to the first seat that has not
    folded and leaves every other seat alone; the chips in the stacks grow
    by the pot, and the pot itself is not cleared. When everybody has
    folded it throws and changes nothing. *)
Theorem resolveWinner_awards g :
  NoDup (map id (players g)) ->
  match getActivePlayers (players g) with
  | w :: _ =>
      exists i,
        players g !! i = Some w
        /\ (forall j p, (j < i)%nat -> players g !! j = Some p ->
              hasFolded p = true)
        /\ resolveWinner g
           = (Returned tt,
              withPlayers g (<[i := awarded w (pot g)]> (players g)))
        /\ totalChips (<[i := awarded w (pot g)]> (players g))
           = totalChips (players g) + pot g
  | [] => exists msg, resolveWinner g = (Thrown (TypeError msg), g)
  end.
Proof.
  intros Hnd. unfold resolveWinner.
  destruct (getActivePlayers (players g)) as [|w rest] eqn:Hact; [eauto|].
  unfold getActivePlayers in Hact.
  destruct (filter_first _ _ _ _ Hact) as (pre & post & Hps & Hpre & _).
  exists (length pre).
  assert (Hw : players g !! length pre = Some w).
  { rewrite Hps. apply list_lookup_middle. reflexivity. }
  split; [exact Hw|]. split; [|split].
  - intros j p Hj Hp. rewrite Hps, lookup_app_l in Hp by exact Hj.
    rewrite Forall_forall in Hpre.
    specialize (Hpre p (list_elem_of_lookup_2 _ _ _ Hp)).
    by destruct (hasFolded p).
  - simpl. rewrite (findIndexById_seat _ _ _ Hnd Hw).
    unfold assignSeat, setPlayer.
    replace (Z.of_nat (length pre) <? 0) with false
      by (symmetry; apply Z.ltb_ge; lia).
    by rewrite Nat2Z.id.
  - unfold totalChips. rewrite (foldl_add_insert _ _ _ w) by exact Hw.
    simpl. lia.
Qed.

Lemma resolveWinner_awards_witness :
  exists g',
    resolveWinner (game roundAfterFold) = (Returned tt, g')
    /\ totalChips (players g') = 3000.
Proof.
  pose proof (resolveWinner_awards (game roundAfterFold)) as H.
  assert (Hnd : NoDup (map id (players (game roundAfterFold))))
    by (apply (bool_decide_unpack _); vm_compute; exact I).
  specialize (H Hnd).
  destruct (getActivePlayers (players (game roundAfterFold)))
    as [|w rest] eqn:Hact; [vm_compute in Hact; discriminate|].
  destruct H as (i & _ & _ & Hrun & Htot).
  eexists. split; [exact Hrun|].
  cbn [players withPlayers]. rewrite Htot. reflexivity.
Defined.

(** ** Blind seats *)

(** X15. A new game has its blinds in order, and the start of a hand keeps
    them so: the small blind moves to the seat the big blind had, the big
    blind one seat further, both stay on the table. The players come out
    of it with their chips and an empty hand, no bet and no flag. *)
Theorem blinds_rotate shuffled g :
  players g <> [] -> blindsInOrder g ->
  let n := Z.of_nat (length (players g)) in
  let g' := startHand shuffled g in
  blindsInOrder g'
  /\ smallBlindPos g' = bigBlindPos g
  /\ 0 <= smallBlindPos g' < n /\ 0 <= bigBlindPos g' < n
  /\ players g' = map resetForNewHand (players g)
  /\ pot g' = 0 /\ currentBet_ g' = 0 /\ tableCard g' = [].
Proof.
  intros Hne [Hsb Hbb] n g'.
  assert (Hn : 0 < n).
  { unfold n. destruct (players g); [done|simpl; lia]. }
  assert (Hlen : Z.of_nat (length (players g')) = n).
  { unfold g', startHand, n. simpl. by rewrite length_map. }
  fold n in Hsb, Hbb.
  assert (Hsb' : smallBlindPos g' = Z.rem (smallBlindPos g + 1) n).
  { unfold g', startHand. simpl. rewrite length_map. reflexivity. }
  assert (Hbb' : bigBlindPos g' = Z.rem (bigBlindPos g + 1) n).
  { unfold g', startHand. simpl. rewrite length_map. reflexivity. }
  assert (Hr1 : 0 <= Z.rem (smallBlindPos g + 1) n < n)
    by (apply Z.rem_bound_pos; lia).
  assert (Hr2 : 0 <= Z.rem (bigBlindPos g + 1) n < n)
    by (apply Z.rem_bound_pos; lia).
  split; [|repeat split; try lia; try reflexivity; congruence].
  unfold blindsInOrder. rewrite Hlen. split; [lia|]. congruence.
Qed.

Lemma blinds_rotate_witness :
  blindsInOrder table3 /\ smallBlindPos table3 = 0 /\ bigBlindPos table3 = 1.
Proof.
  destruct (blinds_rotate createDeck
              (createNewGame [("a", "Alice", 1000); ("b", "Bob", 1000);
                              ("c", "Charlie", 1000)]))
    as (H & _); [discriminate | split; [simpl; lia|reflexivity] |].
  split; [exact H|]. split; reflexivity.
Defined.
